(** * Gallery server: cache-aside image listing over Redis and Cloudinary

    A shallow embedding of the Express server (route handlers
    [/api/images], [/health], [/api/clear-cache], the helper
    [fetchImagesFromCloudinary] and the SIGINT hook) together with the
    parts of the JavaScript runtime they rely on: UTF-16 strings,
    [String.prototype.split], [JSON.stringify] and [JSON.parse].

    Console output is not modelled: it never changes control flow. *)

From Stdlib Require Import NArith ZArith String Ascii Lia.
From stdpp Require Import base option list numbers gmap pretty.

Local Open Scope N_scope.

(** ** JavaScript strings *)

(** A JavaScript string is a sequence of UTF-16 code units. *)
Definition jsstring : Type := list N.

(** ASCII literals of the source, as code units. *)
Definition js (s : string) : jsstring := N_of_ascii <$> list_ascii_of_string s.

Definition QUOTE : N := 34.      (* the double quote *)
Definition BACKSLASH : N := 92.
Definition SLASH : N := 47.
Definition LBRACE : N := 123.
Definition RBRACE : N := 125.
Definition LBRACKET : N := 91.
Definition RBRACKET : N := 93.
Definition COLON : N := 58.
Definition COMMA : N := 44.

(** [s.split(sep)] for a one-unit separator: the segments between
    occurrences of [sep]; never empty ([''.split('/')] is [['']]). *)
Fixpoint split (sep : N) (s : jsstring) : list jsstring :=
  match s with
  | [] => [[]]
  | c :: r =>
      if c =? sep then [] :: split sep r
      else match split sep r with
           | seg :: segs => (c :: seg) :: segs
           | [] => [[c]]
           end
  end.

(** [a.pop()] as an expression: the last element, [undefined] on an
    empty array. *)
Definition pop {A} (a : list A) : option A := last a.

(** ** JSON values *)

(** Numbers are carried as their literal: no claim of this development
    depends on arithmetic, and the objects the server builds hold none.
    Properties are kept in insertion order, which is the enumeration
    order of JavaScript for keys that are not array indices. *)
#[warnings="-register-all"]
Inductive json : Type :=
| JNull
| JBool (b : bool)
| JNum (literal : jsstring)
| JStr (s : jsstring)
| JArr (items : list json)
| JObj (props : list (jsstring * json)).

(** [o[k]]: [None] stands for [undefined]. *)
Fixpoint lookup_prop (k : jsstring) (props : list (jsstring * json)) : option json :=
  match props with
  | [] => None
  | (k', v) :: ps => if bool_decide (k' = k) then Some v else lookup_prop k ps
  end.

Definition get_prop (k : jsstring) (v : json) : option json :=
  match v with
  | JObj props => lookup_prop k props
  | _ => None
  end.

(** [o[k] = v]: overwrite in place, or append a new property. *)
Fixpoint set_prop (props : list (jsstring * json)) (kv : jsstring * json)
  : list (jsstring * json) :=
  match props with
  | [] => [kv]
  | (k', v') :: ps =>
      if bool_decide (k' = kv.1) then (k', kv.2) :: ps
      else (k', v') :: set_prop ps kv
  end.

(** ** JSON.stringify *)

Definition is_lead (c : N) : bool := (0xD800 <=? c) && (c <=? 0xDBFF).
Definition is_trail (c : N) : bool := (0xDC00 <=? c) && (c <=? 0xDFFF).

Definition hex_digit (d : N) : N := if d <? 10 then 48 + d else 87 + d.

(** [UnicodeEscape]: backslash, [u] and four lowercase hex digits. *)
Definition unicode_escape (c : N) : jsstring :=
  [BACKSLASH; 117;
   hex_digit (c / 4096 mod 16); hex_digit (c / 256 mod 16);
   hex_digit (c / 16 mod 16); hex_digit (c mod 16)].

(** One code point that is a single code unit, as [QuoteJSONString]
    writes it. *)
Definition quote_unit (c : N) : jsstring :=
  if c =? 8 then [BACKSLASH; 98]
  else if c =? 9 then [BACKSLASH; 116]
  else if c =? 10 then [BACKSLASH; 110]
  else if c =? 12 then [BACKSLASH; 102]
  else if c =? 13 then [BACKSLASH; 114]
  else if c =? QUOTE then [BACKSLASH; QUOTE]
  else if c =? BACKSLASH then [BACKSLASH; BACKSLASH]
  else if (c <? 32) || is_lead c || is_trail c then unicode_escape c
  else [c].

(** The body of [QuoteJSONString]: the string is read by code points, so
    a lead surrogate followed by a trail surrogate is copied as a pair
    and any other surrogate is escaped. *)
Fixpoint quote_units (s : jsstring) : jsstring :=
  match s with
  | [] => []
  | c :: r =>
      if is_lead c then
        match r with
        | d :: r' =>
            if is_trail d then c :: d :: quote_units r'
            else unicode_escape c ++ quote_units r
        | [] => unicode_escape c
        end
      else quote_unit c ++ quote_units r
  end.

Definition quote (s : jsstring) : jsstring := QUOTE :: quote_units s ++ [QUOTE].

(** Items separated by commas. *)
Fixpoint join_comma (parts : list jsstring) : jsstring :=
  match parts with
  | [] => []
  | [p] => p
  | p :: ps => p ++ COMMA :: join_comma ps
  end.

(** [JSON.stringify(v)] without indentation. *)
Fixpoint JSON_stringify (v : json) : jsstring :=
  match v with
  | JNull => js "null"
  | JBool true => js "true"
  | JBool false => js "false"
  | JNum literal => literal
  | JStr s => quote s
  | JArr items => LBRACKET :: join_comma (map JSON_stringify items) ++ [RBRACKET]
  | JObj props =>
      LBRACE ::
      join_comma (map (fun kv => quote kv.1 ++ COLON :: JSON_stringify kv.2) props)
      ++ [RBRACE]
  end.

(** ** JSON.parse *)

Definition is_ws (c : N) : bool :=
  (c =? 32) || (c =? 9) || (c =? 10) || (c =? 13).

Fixpoint skip_ws (s : jsstring) : jsstring :=
  match s with
  | c :: r => if is_ws c then skip_ws r else s
  | [] => []
  end.

Definition hex_value (c : N) : option N :=
  if (48 <=? c) && (c <=? 57) then Some (c - 48)
  else if (97 <=? c) && (c <=? 102) then Some (c - 87)
  else if (65 <=? c) && (c <=? 70) then Some (c - 55)
  else None.

Definition hex4 (a b c d : N) : option N :=
  x3 ← hex_value a; x2 ← hex_value b; x1 ← hex_value c; x0 ← hex_value d;
  Some (x3 * 4096 + x2 * 256 + x1 * 16 + x0).

(** The unit named by a one-letter escape. *)
Definition simple_escape (e : N) : option N :=
  if e =? QUOTE then Some QUOTE
  else if e =? BACKSLASH then Some BACKSLASH
  else if e =? SLASH then Some SLASH
  else if e =? 98 then Some 8
  else if e =? 102 then Some 12
  else if e =? 110 then Some 10
  else if e =? 114 then Some 13
  else if e =? 116 then Some 9
  else None.

(** The characters of a string literal after its opening quote, up to
    and including the closing quote. *)
Fixpoint parse_chars (s : jsstring) : option (jsstring * jsstring) :=
  match s with
  | [] => None
  | c :: r =>
      if c =? QUOTE then Some ([], r)
      else if c =? BACKSLASH then
        match r with
        | [] => None
        | e :: r1 =>
            if e =? 117 then
              match r1 with
              | a :: b :: c' :: d :: r2 =>
                  u ← hex4 a b c' d;
                  '(t, rest) ← parse_chars r2;
                  Some (u :: t, rest)
              | _ => None
              end
            else
              u ← simple_escape e;
              '(t, rest) ← parse_chars r1;
              Some (u :: t, rest)
        end
      else if c <? 32 then None
      else '(t, rest) ← parse_chars r; Some (c :: t, rest)
  end.

Definition is_digit (c : N) : bool := (48 <=? c) && (c <=? 57).

Fixpoint span_digits (s : jsstring) : jsstring * jsstring :=
  match s with
  | c :: r =>
      if is_digit c then let '(ds, rest) := span_digits r in (c :: ds, rest)
      else ([], s)
  | [] => ([], [])
  end.

(** At least one digit. *)
Definition scan_digits1 (s : jsstring) : option (jsstring * jsstring) :=
  match span_digits s with
  | ([], _) => None
  | (ds, rest) => Some (ds, rest)
  end.

(** [0] or a digit sequence without leading zero. *)
Definition scan_int (s : jsstring) : option (jsstring * jsstring) :=
  match s with
  | c :: r =>
      if c =? 48 then Some ([c], r)
      else if is_digit c then let '(ds, rest) := span_digits r in Some (c :: ds, rest)
      else None
  | [] => None
  end.

Definition scan_frac (s : jsstring) : option (jsstring * jsstring) :=
  match s with
  | c :: r =>
      if c =? 46 then '(ds, rest) ← scan_digits1 r; Some (c :: ds, rest)
      else Some ([], s)
  | [] => Some ([], [])
  end.

Definition scan_exp (s : jsstring) : option (jsstring * jsstring) :=
  match s with
  | c :: r =>
      if (c =? 101) || (c =? 69) then
        match r with
        | g :: r' =>
            if (g =? 43) || (g =? 45) then
              '(ds, rest) ← scan_digits1 r'; Some (c :: g :: ds, rest)
            else '(ds, rest) ← scan_digits1 r; Some (c :: ds, rest)
        | [] => None
        end
      else Some ([], s)
  | [] => Some ([], [])
  end.

(** A JSON number: optional minus, integer part, optional fraction and
    exponent. *)
Definition scan_number (s : jsstring) : option (jsstring * jsstring) :=
  let '(sign, s0) :=
    match s with
    | c :: r => if c =? 45 then ([c], r) else ([], s)
    | [] => ([], [])
    end in
  '(i, s1) ← scan_int s0;
  '(f, s2) ← scan_frac s1;
  '(e, s3) ← scan_exp s2;
  Some (sign ++ i ++ f ++ e, s3).

(** [s] without the prefix [p], when it starts with it. *)
Fixpoint strip_prefix (p s : jsstring) : option jsstring :=
  match p, s with
  | [], _ => Some s
  | a :: p', b :: s' => if a =? b then strip_prefix p' s' else None
  | _ :: _, [] => None
  end.

Definition parse_literal (s : jsstring) : option (json * jsstring) :=
  match strip_prefix (js "null") s with
  | Some r => Some (JNull, r)
  | None =>
      match strip_prefix (js "true") s with
      | Some r => Some (JBool true, r)
      | None =>
          match strip_prefix (js "false") s with
          | Some r => Some (JBool false, r)
          | None => '(n, r) ← scan_number s; Some (JNum n, r)
          end
      end
  end.

(** Recursive descent over the JSON grammar. Every call spends one unit
    of [fuel]; [JSON_parse] supplies enough for the whole text. *)
Fixpoint parse_value (fuel : nat) (s : jsstring) : option (json * jsstring) :=
  match fuel with
  | O => None
  | S fuel =>
      match skip_ws s with
      | [] => None
      | c :: r =>
          if c =? QUOTE then '(t, rest) ← parse_chars r; Some (JStr t, rest)
          else if c =? LBRACKET then
            match skip_ws r with
            | c' :: r' =>
                if c' =? RBRACKET then Some (JArr [], r')
                else '(items, rest) ← parse_elements fuel r; Some (JArr items, rest)
            | [] => None
            end
          else if c =? LBRACE then
            match skip_ws r with
            | c' :: r' =>
                if c' =? RBRACE then Some (JObj [], r')
                else '(ps, rest) ← parse_members fuel r;
                     Some (JObj (foldl set_prop [] ps), rest)
            | [] => None
            end
          else parse_literal (c :: r)
      end
  end
with parse_elements (fuel : nat) (s : jsstring) : option (list json * jsstring) :=
  match fuel with
  | O => None
  | S fuel =>
      '(v, r) ← parse_value fuel s;
      match skip_ws r with
      | c :: r' =>
          if c =? COMMA then
            '(vs, rest) ← parse_elements fuel r'; Some (v :: vs, rest)
          else if c =? RBRACKET then Some ([v], r')
          else None
      | [] => None
      end
  end
with parse_members (fuel : nat) (s : jsstring)
  : option (list (jsstring * json) * jsstring) :=
  match fuel with
  | O => None
  | S fuel =>
      match skip_ws s with
      | c :: r =>
          if c =? QUOTE then
            '(k, r1) ← parse_chars r;
            match skip_ws r1 with
            | c1 :: r2 =>
                if c1 =? COLON then
                  '(v, r3) ← parse_value fuel r2;
                  match skip_ws r3 with
                  | c3 :: r4 =>
                      if c3 =? COMMA then
                        '(ps, rest) ← parse_members fuel r4; Some ((k, v) :: ps, rest)
                      else if c3 =? RBRACE then Some ([(k, v)], r4)
                      else None
                  | [] => None
                  end
                else None
            | [] => None
            end
          else None
      | [] => None
      end
  end.

(** [JSON.parse(text)]; [None] stands for the SyntaxError it throws. *)
Definition JSON_parse (text : jsstring) : option json :=
  '(v, rest) ← parse_value (2 * length text + 2) text;
  match skip_ws rest with
  | [] => Some v
  | _ :: _ => None
  end.

(** ** Errors and promises *)

(** A thrown value; the handlers only ever read its [message]. *)
Record error : Type := Error { message : jsstring }.

(** How an awaited promise settles, and how a call that may throw
    ends: with a value, or with the error. *)
Inductive outcome (A : Type) : Type :=
| Resolved (a : A)
| Rejected (e : error).
Arguments Resolved {A} a.
Arguments Rejected {A} e.

(** ** Upstream data and gallery snapshots *)

Module Resource.
(** One entry of [result.resources]. [public_id] is [None] when the
    property is absent or not a string, the case in which
    [resource.public_id.split] raises. [secure_url], a string in the
    service's responses, is copied without being looked at; it is
    [None] when the property is absent. *)
Record t : Type :=
  make { public_id : option jsstring; secure_url : option jsstring }.
End Resource.

(** The value [execute()] resolves with. [resources] is [None] when the
    property is absent or not an array, the case in which
    [result.resources.map] raises. *)
Record search_result : Type := { resources : option (list Resource.t) }.

(** The transformation options handed to [cloudinary.url]. *)
Record url_options : Type :=
  { crop : jsstring; width : Z; height : Z; quality : jsstring }.

Module Image.
(** One descriptor of the gallery. [original_url] is [None] when the
    resource had no [secure_url]: the property then holds
    [undefined]. *)
Record t : Type :=
  make { public_id : jsstring; url : jsstring; original_url : option jsstring;
         title : jsstring }.

(** The object a descriptor is. The server only ever serializes it,
    with [JSON.stringify] and with [res.json], and both leave out a
    property that holds [undefined]: so it is left out here. *)
Definition to_json (i : t) : json :=
  JObj ([(js "public_id", JStr (public_id i)); (js "url", JStr (url i))]
        ++ (if original_url i is Some u then [(js "original_url", JStr u)] else [])
        ++ [(js "title", JStr (title i))]).
End Image.

(** The array [images] as a JavaScript value. *)
Definition snapshot (images : list Image.t) : json := JArr (map Image.to_json images).

(** ** Programs over the external services *)

(** The asynchronous calls made by the server. *)
Inductive call : Type :=
| RedisGet (key : jsstring)
| RedisSetEx (key : jsstring) (seconds : Z) (value : jsstring)
| RedisDel (key : jsstring)
| RedisQuit
| SearchExecute (expression : jsstring) (max_results : Z).

(** What each call resolves with. *)
Definition reply (c : call) : Type :=
  match c with
  | RedisGet _ => option jsstring        (* the value, or null *)
  | RedisSetEx _ _ _ => unit
  | RedisDel _ => Z                      (* number of keys removed *)
  | RedisQuit => unit
  | SearchExecute _ _ => search_result
  end.

(** A handler body: it returns, throws, reads the global
    [redisConnected], or suspends on a call and continues with the way
    the promise settled. *)
Inductive prog (R : Type) : Type :=
| Ret (r : R)
| Throw (e : error)
| ReadConnected (k : bool → prog R)
| Await (c : call) (k : outcome (reply c) → prog R).
Arguments Ret {R} r.
Arguments Throw {R} e.
Arguments ReadConnected {R} k.
Arguments Await {R} c k.

Fixpoint bind {A B} (p : prog A) (f : A → prog B) : prog B :=
  match p with
  | Ret a => f a
  | Throw e => Throw e
  | ReadConnected k => ReadConnected (fun b => bind (k b) f)
  | Await c k => Await c (fun o => bind (k o) f)
  end.

#[global] Instance prog_ret : MRet prog := @Ret.
#[global] Instance prog_bind : MBind prog := fun A B f p => bind p f.

(** [try { p } catch (e) { h e }] *)
Fixpoint try_catch {A} (p : prog A) (h : error → prog A) : prog A :=
  match p with
  | Ret a => Ret a
  | Throw e => h e
  | ReadConnected k => ReadConnected (fun b => try_catch (k b) h)
  | Await c k => Await c (fun o => try_catch (k o) h)
  end.

(** [await c]: a rejection is rethrown at the await. *)
Definition await (c : call) : prog (reply c) :=
  Await c (fun o => match o with Resolved a => Ret a | Rejected e => Throw e end).

Definition read_connected : prog bool := ReadConnected Ret.

(** [xs.map(f)] for a callback that may throw: elements are visited in
    order and the first exception leaves the loop. *)
Fixpoint array_map {A B} (f : A → prog B) (xs : list A) : prog (list B) :=
  match xs with
  | [] => Ret []
  | x :: r => y ← f x; ys ← array_map f r; Ret (y :: ys)
  end.

(** ** The server *)

Record response : Type := { status : Z; body : json }.

(** [res.json(b)] *)
Definition res_json (b : json) : response := {| status := 200; body := b |}.
(** [res.status(s).json(b)] *)
Definition res_status_json (s : Z) (b : json) : response := {| status := s; body := b |}.

Definition IMAGES_CACHE_KEY : jsstring := js "cloudinary:images:all".
Definition CACHE_TTL : Z := 3600.

Definition display_options : url_options :=
  {| crop := js "fill"; width := 400; height := 400; quality := js "auto" |}.

(** What the server takes from its platform: the configured SDK's URL
    builder, which throws on an identifier it cannot encode, and the
    engine's own exceptions. *)
Record platform : Type := {
  cloudinary_url : jsstring → url_options → outcome jsstring;
  type_error : error;
  syntax_error : jsstring → error;
}.

Section Server.
Context (P : platform).

(** The callback of [result.resources.map]. The properties of the
    object literal are evaluated in order: the call of [cloudinary.url]
    may throw, [secure_url] is copied as it is, and [split] needs a
    string to be called on. *)
Definition describe (resource : Resource.t) : prog Image.t :=
  match Resource.public_id resource with
  | Some id =>
      match cloudinary_url P id display_options with
      | Resolved url =>
          Ret {| Image.public_id := id;
                 Image.url := url;
                 Image.original_url := Resource.secure_url resource;
                 (* [split] never returns an empty array *)
                 Image.title := default [] (pop (split SLASH id)) |}
      | Rejected e => Throw e
      end
  | None => Throw (type_error P)
  end.

Definition fetchImagesFromCloudinary : prog (list Image.t) :=
  try_catch
    (result ← await (SearchExecute (js "resource_type:image") 20);
     match resources result with
     | Some rs => array_map describe rs
     | None => Throw (type_error P)
     end)
    (fun _ => Throw (Error (js "Failed to fetch images from Cloudinary"))).

Definition hit_body (data : json) : json :=
  JObj [(js "success", JBool true); (js "cached", JBool true); (js "data", data)].

Definition miss_body (images : list Image.t) : json :=
  JObj [(js "success", JBool true); (js "cached", JBool false);
        (js "data", snapshot images)].

Definition failure_body (e : error) : json :=
  JObj [(js "success", JBool false); (js "error", JStr (message e))].

(** Lines 98-115 of the handler: reached when the cache was not
    consulted or had nothing to serve. *)
Definition fetch_and_cache : prog response :=
  images ← fetchImagesFromCloudinary;
  connected ← read_connected;
  (if connected : bool then
     await (RedisSetEx IMAGES_CACHE_KEY CACHE_TTL (JSON_stringify (snapshot images)))
   else Ret ());;
  Ret (res_json (miss_body images)).

(** [app.get('/api/images', ...)] *)
Definition get_images : prog response :=
  try_catch
    (connected ← read_connected;
     if connected : bool then
       cachedImages ← await (RedisGet IMAGES_CACHE_KEY);
       match cachedImages with
       | Some (c :: t) =>
           match JSON_parse (c :: t) with
           | Some data => Ret (res_json (hit_body data))
           | None => Throw (syntax_error P (c :: t))
           end
       | Some [] | None => fetch_and_cache
       end
     else fetch_and_cache)
    (fun error => Ret (res_status_json 500 (failure_body error))).

(** [app.get('/health', ...)] *)
Definition health : prog response :=
  connected ← read_connected;
  Ret (res_json
         (JObj [(js "status", JStr (js "OK"));
                (js "redis",
                 JStr (if connected : bool then js "connected" else js "disconnected"))])).

(** [app.post('/api/clear-cache', ...)] *)
Definition clear_cache : prog response :=
  try_catch
    (connected ← read_connected;
     if connected : bool then
       await (RedisDel IMAGES_CACHE_KEY);;
       Ret (res_json (JObj [(js "success", JBool true);
                            (js "message", JStr (js "Cache cleared"))]))
     else
       Ret (res_status_json 400
              (JObj [(js "success", JBool false);
                     (js "message", JStr (js "Redis not connected"))])))
    (fun error => Ret (res_status_json 500 (failure_body error))).

(** [process.on('SIGINT', ...)]: the result is the exit code. *)
Definition on_sigint : prog Z :=
  connected ← read_connected;
  (if connected : bool then await RedisQuit else Ret ());;
  Ret 0%Z.
End Server.

(** ** Running a handler *)

(** The process state: the global flag and the state of the outside
    world. *)
Record world (E : Type) : Type := World { redisConnected : bool; ext : E }.
Arguments World {E} _ _.
Arguments redisConnected {E} _.
Arguments ext {E} _.

(** The outside world settles every call and may, while the handler is
    suspended, let the pending [connect()] callback assign the flag. *)
Definition environment (E : Type) : Type :=
  ∀ c : call, world E → outcome (reply c) * world E.

(** The result of a handler, the final state and the calls it made, in
    order. *)
Fixpoint run {E R} (env : environment E) (p : prog R) (w : world E)
  : outcome R * world E * list call :=
  match p with
  | Ret r => (Resolved r, w, [])
  | Throw e => (Rejected e, w, [])
  | ReadConnected k => run env (k (redisConnected w)) w
  | Await c k =>
      let '(o, w1) := env c w in
      let '(res, w2, calls) := run env (k o) w1 in
      (res, w2, c :: calls)
  end.

(** Calls that address the cache store. *)
Definition is_cache_call (c : call) : bool :=
  match c with
  | SearchExecute _ _ => false
  | _ => true
  end.

(** ** A reference environment: a Redis server and an upstream oracle *)

Record entry : Type := { value : jsstring; expires_at : Z }.

(** The keyspace with absolute expiry times, and the server clock. *)
Record redis : Type := { store : gmap jsstring entry; now : Z }.

(** GET: the value of a key that exists and has not expired. *)
Definition redis_get (k : jsstring) (s : redis) : option jsstring :=
  e ← store s !! k;
  if bool_decide (now s < expires_at e)%Z then Some (value e) else None.

(** SETEX *)
Definition redis_setEx (k : jsstring) (seconds : Z) (v : jsstring) (s : redis) : redis :=
  {| store := <[k := {| value := v; expires_at := now s + seconds |}]> (store s);
     now := now s |}.

(** DEL *)
Definition redis_del (k : jsstring) (s : redis) : redis :=
  {| store := delete k (store s); now := now s |}.

(** A healthy Redis server and an upstream service answering a search
    as [search] says. *)
Definition live (search : jsstring → Z → outcome search_result) : environment redis :=
  fun c =>
    match c as c0 return world redis → outcome (reply c0) * world redis with
    | RedisGet k => fun w => (Resolved (redis_get k (ext w)), w)
    | RedisSetEx k seconds v => fun w =>
        (Resolved (), World (redisConnected w) (redis_setEx k seconds v (ext w)))
    | RedisDel k => fun w =>
        (Resolved (if redis_get k (ext w) is Some _ then 1 else 0)%Z,
         World (redisConnected w) (redis_del k (ext w)))
    | RedisQuit => fun w => (Resolved (), w)
    | SearchExecute expression max_results => fun w => (search expression max_results, w)
    end.


(** Like [live], but the pending [connect()] settles while the search is
    in flight: its callback sets the flag. *)
Definition connecting (search : jsstring → Z → outcome search_result) : environment redis :=
  fun c =>
    match c as c0 return world redis → outcome (reply c0) * world redis with
    | SearchExecute expression max_results => fun w =>
        (search expression max_results, World true (ext w))
    | RedisGet k => live search (RedisGet k)
    | RedisSetEx k seconds v => live search (RedisSetEx k seconds v)
    | RedisDel k => live search (RedisDel k)
    | RedisQuit => live search RedisQuit
    end.

(** ** Sample data *)

(** Whether a string is well-formed UTF-16: every surrogate is half of
    a pair. [encodeURIComponent] throws on the others. *)
Fixpoint is_well_formed (s : jsstring) : bool :=
  match s with
  | [] => true
  | c :: t =>
      if is_lead c then
        match t with
        | d :: t' => is_trail d && is_well_formed t'
        | [] => false
        end
      else negb (is_trail c) && is_well_formed t
  end.

(** Whether every percent sign of a string starts an escape of two
    hexadecimal digits. [decodeURIComponent] throws on the others. *)
Fixpoint escapes_ok (s : jsstring) : bool :=
  match s with
  | [] => true
  | c :: t =>
      if c =? 37 then
        match t with
        | a :: b :: t' =>
            bool_decide (is_Some (hex_value a)) && bool_decide (is_Some (hex_value b))
            && escapes_ok t'
        | _ => false
        end
      else escapes_ok t
  end.

(** A sample platform: a URL builder that puts the identifier into the
    path of the delivery URL and, like [decodeURIComponent] and
    [encodeURIComponent], throws on a stray percent sign and on a lone
    surrogate. *)
Definition demo : platform :=
  {| cloudinary_url := fun id o =>
       if escapes_ok id && is_well_formed id then
         Resolved
           (js "https://res.cloudinary.com/demo/image/upload/c_fill,h_400,q_auto,w_400/"
               ++ id)
       else Rejected (Error (js "URI malformed"));
     type_error := Error (js "Cannot read properties of undefined");
     syntax_error := fun _ => Error (js "Unexpected token in JSON") |}.

Definition cat : Resource.t :=
  Resource.make (Some (js "pets/cats/tom"))
    (Some (js "https://res.cloudinary.com/demo/pets/cats/tom.jpg")).
Definition dog : Resource.t :=
  Resource.make (Some (js "rex")) (Some (js "https://res.cloudinary.com/demo/rex.jpg")).
Definition nameless : Resource.t :=
  Resource.make None (Some (js "https://res.cloudinary.com/demo/x.jpg")).

(** An upstream holding two images. *)
Definition two_images (e : jsstring) (m : Z) : outcome search_result :=
  if (0 <=? m)%Z then Resolved {| resources := Some (take (Z.to_nat m) [cat; dog]) |}
  else Rejected (Error (js "max_results must be positive")).
Definition unreachable_host (e : jsstring) (m : Z) : outcome search_result :=
  Rejected (Error (js "getaddrinfo ENOTFOUND api.cloudinary.com")).
(** An upstream whose second resource has no identifier. *)
Definition broken_listing (e : jsstring) (m : Z) : outcome search_result :=
  Resolved {| resources := Some [cat; nameless] |}.

Definition empty_redis : redis := {| store := ∅; now := 1000 |}.

Definition tom : Image.t :=
  Image.make (js "pets/cats/tom")
    (js "https://res.cloudinary.com/demo/image/upload/c_fill,h_400,q_auto,w_400/pets/cats/tom")
    (Some (js "https://res.cloudinary.com/demo/pets/cats/tom.jpg")) (js "tom").
Definition rex : Image.t :=
  Image.make (js "rex")
    (js "https://res.cloudinary.com/demo/image/upload/c_fill,h_400,q_auto,w_400/rex")
    (Some (js "https://res.cloudinary.com/demo/rex.jpg")) (js "rex").

(** A store that cached the two images 400 seconds ago. *)
Definition warm_entry : entry :=
  {| value := JSON_stringify (snapshot [tom; rex]); expires_at := 4200 |}.
Definition warm_redis : redis :=
  {| store := {[ IMAGES_CACHE_KEY := warm_entry ]}; now := 1000 |}.

(** ** Vocabulary of the statements *)

(** The one search the server issues. *)
Definition image_search : call := SearchExecute (js "resource_type:image") 20.

(** The error the fetcher raises for any failure underneath it. *)
Definition upstream_error : error := Error (js "Failed to fetch images from Cloudinary").

(** The display URL of an identifier: what [cloudinary.url] makes of it
    for a 400 by 400 fill of automatic quality, when it does not
    throw. *)
Definition display_url (P : platform) (id : jsstring) : outcome jsstring :=
  cloudinary_url P id
    {| crop := js "fill"; width := 400; height := 400; quality := js "auto" |}.

(** A resource on which the callback of [map] throws: it has no string
    [public_id], or [cloudinary.url] throws on its identifier. *)
Definition unreadable (P : platform) (x : Resource.t) : bool :=
  match Resource.public_id x with
  | None => true
  | Some id =>
      match display_url P id with
      | Resolved _ => false
      | Rejected _ => true
      end
  end.

(** A response on which the transformation throws: it has no array of
    resources, or one of its resources is unreadable. *)
Definition transformation_throws (P : platform) (r : search_result) : bool :=
  match resources r with
  | None => true
  | Some rs => existsb (unreadable P) rs
  end.

(** A settled search under which the fetcher fails: the call was
    rejected, or the transformation throws on what it returned. *)
Definition fetch_fails (P : platform) (o : outcome search_result) : bool :=
  match o with
  | Rejected _ => true
  | Resolved r => transformation_throws P r
  end.

(** The upstream service returns no more resources than a search asks
    for. *)
Definition honours_max_results {E} (env : environment E) : Prop :=
  ∀ expression max_results w r rs,
    (env (SearchExecute expression max_results) w).1 = Resolved r →
    resources r = Some rs →
    (Z.of_nat (length rs) ≤ max_results)%Z.

(** [image] is the descriptor of [resource]. *)
Definition describes (P : platform) (resource : Resource.t) (image : Image.t) : Prop :=
  ∃ id,
    Resource.public_id resource = Some id ∧
    Image.public_id image = id ∧
    display_url P id = Resolved (Image.url image) ∧
    Image.original_url image = Resource.secure_url resource ∧
    pop (split SLASH id) = Some (Image.title image).

(** Every call a program can make satisfies [Q], however the calls
    before it settle. *)
Inductive issues (Q : call → Prop) {R : Type} : prog R → Prop :=
| issues_Ret r : issues Q (Ret r)
| issues_Throw e : issues Q (Throw e)
| issues_Read k : (∀ b, issues Q (k b)) → issues Q (ReadConnected k)
| issues_Await c k : Q c → (∀ o, issues Q (k o)) → issues Q (Await c k).

(** The call stays on the one cache entry: the fixed key, and an expiry
    of 3600 seconds when it writes. *)
Definition on_fixed_key (c : call) : Prop :=
  match c with
  | RedisGet k => k = js "cloudinary:images:all"
  | RedisSetEx k seconds _ => k = js "cloudinary:images:all" ∧ seconds = 3600%Z
  | RedisDel k => k = js "cloudinary:images:all"
  | RedisQuit | SearchExecute _ _ => True
  end.

Definition is_write (c : call) : bool :=
  match c with RedisSetEx _ _ _ => true | _ => false end.

Definition is_delete (c : call) : bool :=
  match c with RedisDel _ => true | _ => false end.

(** ** The passing of time *)

(** The same process and store, [seconds] later. *)
Definition elapse (seconds : Z) (w : world redis) : world redis :=
  World (redisConnected w) {| store := store (ext w); now := now (ext w) + seconds |}.

(** ** Start-up configuration *)

(** [StrWhiteSpaceChar]: white space and line terminators. *)
Definition is_str_whitespace (c : N) : bool :=
  (c =? 9) || (c =? 10) || (c =? 11) || (c =? 12) || (c =? 13) || (c =? 32)
  || (c =? 0xA0) || (c =? 0x1680) || ((0x2000 <=? c) && (c <=? 0x200A))
  || (c =? 0x2028) || (c =? 0x2029) || (c =? 0x202F) || (c =? 0x205F)
  || (c =? 0x3000) || (c =? 0xFEFF).

Fixpoint trim_start (s : jsstring) : jsstring :=
  match s with
  | c :: r => if is_str_whitespace c then trim_start r else s
  | [] => []
  end.

(** The value of a digit in the given radix, if it is one. *)
Definition digit_value (radix c : N) : option N :=
  let d := if (48 <=? c) && (c <=? 57) then Some (c - 48)
           else if (97 <=? c) && (c <=? 122) then Some (c - 87)
           else if (65 <=? c) && (c <=? 90) then Some (c - 55)
           else None in
  d ≫= fun v => if v <? radix then Some v else None.

(** The integer written by the longest prefix of digits; [acc] is
    [None] until a digit has been read. *)
Fixpoint digits_value (radix : N) (acc : option N) (s : jsstring) : option N :=
  match s with
  | c :: r =>
      match digit_value radix c with
      | Some d => digits_value radix (Some (default 0 acc * radix + d)) r
      | None => acc
      end
  | [] => acc
  end.

(** [parseInt(s)] with no radix argument; [None] stands for NaN. The
    result is the integer the digits denote, which the engine rounds to a
    double: the two agree below 2^53 (and -0 is not told from 0). *)
Definition parseInt (s : jsstring) : option Z :=
  let s1 := trim_start s in
  let '(negative, s2) :=
    match s1 with
    | c :: r => if c =? 45 then (true, r) else if c =? 43 then (false, r) else (false, s1)
    | [] => (false, [])
    end in
  let '(radix, s3) :=
    match s2 with
    | z :: x :: r =>
        if (z =? 48) && ((x =? 120) || (x =? 88)) then (16, r) else (10, s2)
    | _ => (10, s2)
    end in
  n ← digits_value radix None s3;
  Some (if negative : bool then - Z.of_N n else Z.of_N n)%Z.

Record socket_options : Type := { host : jsstring; port : option Z }.

(** The argument of [createClient]. *)
Inductive client_options : Type :=
| WithSocket (username : jsstring) (password : option jsstring) (socket : socket_options)
| WithUrl (url : jsstring).

(** [v || d] for an environment variable [v]: unset and empty both give
    [d]. *)
Definition or_else (v : option jsstring) (d : jsstring) : jsstring :=
  match v with
  | Some (c :: t) => c :: t
  | Some [] | None => d
  end.

(** Lines 21-34, over [process.env]. *)
Definition redis_client_options (env : gmap jsstring jsstring) : client_options :=
  match env !! js "REDIS_HOST", env !! js "REDIS_PORT" with
  | Some (h :: hs), Some (p :: ps) =>
      WithSocket (or_else (env !! js "REDIS_USERNAME") (js "default"))
                 (env !! js "REDIS_PASSWORD")
                 {| host := h :: hs; port := parseInt (p :: ps) |}
  | _, _ => WithUrl (or_else (env !! js "REDIS_URL") (js "redis://localhost:6379"))
  end.

(** ** The gallery page *)

(** What a [catch] clause receives: an [Error], or some other value. *)
Inductive thrown : Type :=
| ThrownError (e : error)
| ThrownOther.

(** What the page takes from the browser's engine. *)
Record browser : Type := {
  number_truthy : jsstring → bool;       (* ToBoolean of the number a literal denotes *)
  to_string : json → jsstring;           (* ToString of a value that is not a string *)
  json_syntax_error : jsstring → error;  (* what [response.json()] rejects with *)
  null_property_error : error;           (* the TypeError of reading a property of null *)
}.

(** How [fetch] settles: rejected, or resolved with a response of the
    given status whose body is the given text. *)
Inductive fetched : Type :=
| FetchRejected (t : thrown)
| FetchResolved (status : Z) (text : jsstring).

Module Home.
(** The state hooks of the component. *)
Record state : Type := {
  images : option json;      (* [None] is undefined *)
  loading : bool;
  error : option jsstring;   (* [None] is null *)
  cached : option json;
  loadTime : Z;
}.

(** The initial values given to [useState]. *)
Definition initial : state :=
  {| images := Some (JArr []); loading := true; error := None;
     cached := Some (JBool false); loadTime := 0 |}.
End Home.

(** [ToBoolean] *)
Definition to_boolean (B : browser) (v : option json) : bool :=
  match v with
  | None | Some JNull => false
  | Some (JBool b) => b
  | Some (JNum n) => number_truthy B n
  | Some (JStr s) => match s with [] => false | _ :: _ => true end
  | Some (JArr _) | Some (JObj _) => true
  end.

(** The message of [new Error(v || 'Failed to fetch images')]. *)
Definition failure_text (B : browser) (v : option json) : jsstring :=
  if to_boolean B v then
    match v with
    | Some (JStr s) => s
    | Some other => to_string B other
    | None => js "Failed to fetch images"
    end
  else js "Failed to fetch images".

(** [response.ok] *)
Definition ok (status : Z) : bool := (200 <=? status)%Z && (status <=? 299)%Z.

(** The body of the [try] block of [fetchImages], from the settled
    [fetch] on: the values handed to [setImages] and [setCached], or
    what is thrown. The page reads the properties [success], [data],
    [cached] and [error] of the parsed body: reading from null throws,
    and primitives and arrays have no such property. *)
Definition load (B : browser) (f : fetched) : thrown + option json * option json :=
  match f with
  | FetchRejected t => inl t
  | FetchResolved status text =>
      if ok status then
        match JSON_parse text with
        | None => inl (ThrownError (json_syntax_error B text))
        | Some JNull => inl (ThrownError (null_property_error B))
        | Some data =>
            if to_boolean B (get_prop (js "success") data) then
              inr (get_prop (js "data") data, get_prop (js "cached") data)
            else
              inl (ThrownError
                     (Error (failure_text B (get_prop (js "error") data))))
        end
      else inl (ThrownError (Error (js "API Error: " ++ js (pretty status))))
  end.

(** The effect [fetchImages]: the component state once it has run to
    the end of its [finally]. [elapsed] is what
    [Math.round(endTime - startTime)] evaluates to. *)
Definition fetchImages (B : browser) (elapsed : Z) (f : fetched) (s : Home.state)
  : Home.state :=
  match load B f with
  | inr (data, cached) =>
      {| Home.images := data; Home.loading := false; Home.error := None;
         Home.cached := cached; Home.loadTime := elapsed |}
  | inl err =>
      {| Home.images := Home.images s; Home.loading := false;
         Home.error := Some match err with
                            | ThrownError e => message e
                            | ThrownOther => js "An error occurred"
                            end;
         Home.cached := Home.cached s; Home.loadTime := Home.loadTime s |}
  end.

(** What [res.json] puts on the wire for the page's [fetch]. *)
Definition served (r : response) : fetched :=
  FetchResolved (status r) (JSON_stringify (body r)).

(** Values that hold no number and whose objects repeat no key. *)
Fixpoint plain (v : json) : bool :=
  match v with
  | JNum _ => false
  | JArr items => forallb plain items
  | JObj props =>
      bool_decide (NoDup props.*1) && forallb (fun kv => plain kv.2) props
  | JNull | JBool _ | JStr _ => true
  end.

(** What the round trip asserts of one value: its text, followed by
    anything, parses back to it with fuel twice the length of the
    input. *)
Definition reads_back (v : json) : Prop :=
  plain v = true →
  ∀ rest g, (2 * length (JSON_stringify v ++ rest) ≤ g)%nat →
            parse_value g (JSON_stringify v ++ rest) = Some (v, rest).

(** A replica: reads are served, writes are refused. *)
Definition replica (search : jsstring → Z → outcome search_result) : environment redis :=
  fun c =>
    match c as c0 return world redis → outcome (reply c0) * world redis with
    | RedisSetEx k seconds v => fun w =>
        (Rejected (Error (js "READONLY You can't write against a read only replica.")), w)
    | RedisDel k => fun w =>
        (Rejected (Error (js "READONLY You can't write against a read only replica.")), w)
    | RedisGet k => live search (RedisGet k)
    | RedisQuit => live search RedisQuit
    | SearchExecute expression max_results => live search (SearchExecute expression max_results)
    end.

(** A store whose entry under the fixed key is not JSON. *)
Definition garbled_redis : redis :=
  {| store := {[ IMAGES_CACHE_KEY := {| value := js "<html>"; expires_at := 4200 |} ]};
     now := 1000 |}.

(** A store whose entry under the fixed key is the empty string, next
    to an entry of another application. *)
Definition blank_redis : redis :=
  {| store := {[ IMAGES_CACHE_KEY := {| value := []; expires_at := 4200 |};
                 js "session:42" := {| value := js "alice"; expires_at := 9000 |} ]};
     now := 1000 |}.

(** A resource filed under a folder name only, and its descriptor. *)
Definition folder : Resource.t :=
  Resource.make (Some (js "pets/")) (Some (js "https://res.cloudinary.com/demo/pets/.jpg")).
Definition untitled : Image.t :=
  Image.make (js "pets/")
    (js "https://res.cloudinary.com/demo/image/upload/c_fill,h_400,q_auto,w_400/pets/")
    (Some (js "https://res.cloudinary.com/demo/pets/.jpg")) [].

(** Environments of the process. *)
Definition socket_env : gmap jsstring jsstring :=
  {[ js "REDIS_HOST" := js "cache.internal"; js "REDIS_PORT" := js "6379";
     js "REDIS_PASSWORD" := js "s3cret"; js "REDIS_URL" := js "redis://elsewhere:1" ]}.
Definition bad_port_env : gmap jsstring jsstring :=
  {[ js "REDIS_HOST" := js "cache.internal"; js "REDIS_PORT" := js "auto" ]}.

(** A sample engine. *)
Definition chrome : browser :=
  {| number_truthy := fun n => negb (bool_decide (n = js "0"));
     to_string := fun _ => js "[object Object]";
     json_syntax_error := fun _ => Error (js "Unexpected token in JSON");
     null_property_error := Error (js "Cannot read properties of null") |}.

(** The connection comes up while the search is in flight, as in
    [connecting], but the server it reaches is a replica: the write is
    refused. *)
Definition connecting_replica (search : jsstring → Z → outcome search_result)
  : environment redis :=
  fun c =>
    match c as c0 return world redis → outcome (reply c0) * world redis with
    | SearchExecute expression max_results => fun w =>
        (search expression max_results, World true (ext w))
    | RedisGet k => replica search (RedisGet k)
    | RedisSetEx k seconds v => replica search (RedisSetEx k seconds v)
    | RedisDel k => replica search (RedisDel k)
    | RedisQuit => replica search RedisQuit
    end.

(** A resource without [secure_url], and its descriptor. *)
Definition unlinked : Resource.t := Resource.make (Some (js "rex")) None.
Definition bare : Image.t :=
  Image.make (js "rex")
    (js "https://res.cloudinary.com/demo/image/upload/c_fill,h_400,q_auto,w_400/rex")
    None (js "rex").

(** Resources whose identifiers the URL builder throws on: a percent
    sign that starts no escape, and a lone surrogate. *)
Definition sale : Resource.t :=
  Resource.make (Some (js "50%off")) (Some (js "https://res.cloudinary.com/demo/50%25off.jpg")).
Definition stray : Resource.t :=
  Resource.make (Some [0xD83D]) (Some (js "https://res.cloudinary.com/demo/stray.jpg")).

(** Upstreams: one with a resource without [secure_url], two with an
    identifier the URL builder throws on, and one that returns 21
    resources whatever the search asks for. *)
Definition unlinked_listing (e : jsstring) (m : Z) : outcome search_result :=
  Resolved {| resources := Some [cat; unlinked] |}.
Definition sale_listing (e : jsstring) (m : Z) : outcome search_result :=
  Resolved {| resources := Some [cat; sale] |}.
Definition stray_listing (e : jsstring) (m : Z) : outcome search_result :=
  Resolved {| resources := Some [cat; stray] |}.
Definition long_listing (e : jsstring) (m : Z) : outcome search_result :=
  Resolved {| resources := Some (replicate 21 dog) |}.

(** * Properties *)

(** ** Strings *)

Lemma split_nonempty sep s : split sep s ≠ [].
Proof.
  destruct s as [|c r]; simpl; [done|].
  destruct (c =? sep); [done|]. by destruct (split sep r).
Qed.

Lemma split_without sep s : sep ∉ s → split sep s = [s].
Proof.
  induction s as [|c r IH]; [done|].
  rewrite not_elem_of_cons. intros [Hne Hr]. simpl.
  destruct (N.eqb_spec c sep) as [->|_]; [done|]. by rewrite IH.
Qed.

Lemma split_at sep p t : split sep (p ++ sep :: t) = split sep p ++ split sep t.
Proof.
  induction p as [|c p IH]; simpl.
  - by rewrite N.eqb_refl.
  - destruct (c =? sep); [by rewrite IH|]. rewrite IH.
    pose proof (split_nonempty sep p). by destruct (split sep p).
Qed.

(** Every string is free of the separator or ends in a last separator
    followed by a separator-free tail. *)
Lemma last_separator sep (s : jsstring) :
  sep ∉ s ∨ ∃ p t, s = p ++ sep :: t ∧ sep ∉ t.
Proof.
  induction s as [|c r [Hr|(p & t & -> & Ht)]].
  - left. apply not_elem_of_nil.
  - destruct (decide (c = sep)) as [->|Hne].
    + right. by exists [], r.
    + left. rewrite not_elem_of_cons. done.
  - right. by exists (c :: p), t.
Qed.

(** The last segment holds no separator and is what follows the last
    separator of the string, or the whole string when there is none. *)
Lemma pop_split_spec sep s t :
  pop (split sep s) = Some t →
  (sep ∉ t) ∧ (s = t ∨ ∃ p, s = p ++ sep :: t).
Proof.
  unfold pop. destruct (last_separator sep s) as [Hs|(p & t' & -> & Ht)].
  - rewrite split_without by done. intros [= <-]. eauto.
  - rewrite split_at, (split_without _ t'), last_snoc by done.
    intros [= <-]. eauto.
Qed.

Lemma pop_split_some sep s : is_Some (pop (split sep s)).
Proof.
  unfold pop. destruct (last_separator sep s) as [Hs|(p & t' & -> & Ht)].
  - rewrite split_without by done. eauto.
  - rewrite split_at, (split_without _ t'), last_snoc by done. eauto.
Qed.

(** ** JSON: strings survive quoting *)

Lemma hex_value_digit d : d < 16 → hex_value (hex_digit d) = Some d.
Proof.
  intros Hd. unfold hex_value, hex_digit.
  destruct (N.ltb_spec d 10).
  - replace ((48 <=? 48 + d) && (48 + d <=? 57)) with true.
    + f_equal. lia.
    + symmetry. apply andb_true_iff. split; apply N.leb_le; lia.
  - replace ((48 <=? 87 + d) && (87 + d <=? 57)) with false.
    + replace ((97 <=? 87 + d) && (87 + d <=? 102)) with true.
      * f_equal. lia.
      * symmetry. apply andb_true_iff. split; apply N.leb_le; lia.
    + symmetry. apply andb_false_iff. right. apply N.leb_gt. lia.
Qed.

Lemma hex4_digits c :
  c < 65536 →
  hex4 (hex_digit (c / 4096 mod 16)) (hex_digit (c / 256 mod 16))
       (hex_digit (c / 16 mod 16)) (hex_digit (c mod 16)) = Some c.
Proof.
  intros Hc. unfold hex4.
  rewrite !hex_value_digit by (apply N.mod_lt; lia). simpl. f_equal.
  assert (c / 16 / 16 = c / 256) as E1 by (by rewrite N.Div0.div_div).
  assert (c / 256 / 16 = c / 4096) as E2 by (by rewrite N.Div0.div_div).
  pose proof (N.div_mod c 16 ltac:(lia)) as H0.
  pose proof (N.div_mod (c / 16) 16 ltac:(lia)) as H1.
  pose proof (N.div_mod (c / 256) 16 ltac:(lia)) as H2.
  rewrite E1 in H1. rewrite E2 in H2.
  assert (c / 4096 < 16) as H3 by (apply N.Div0.div_lt_upper_bound; lia).
  rewrite (N.mod_small (c / 4096) 16) by done.
  lia.
Qed.

Lemma parse_chars_escape c tail :
  c < 65536 →
  parse_chars (unicode_escape c ++ tail)
  = '(t, rest) ← parse_chars tail; Some (c :: t, rest).
Proof.
  intros Hc. unfold unicode_escape.
  cbn -[hex4 hex_digit N.div N.modulo]. by rewrite hex4_digits.
Qed.

Lemma parse_chars_raw c tail :
  c ≠ QUOTE → c ≠ BACKSLASH → 32 ≤ c →
  parse_chars (c :: tail) = '(t, rest) ← parse_chars tail; Some (c :: t, rest).
Proof.
  intros Hq Hb Hc. cbn [parse_chars].
  apply N.eqb_neq in Hq as ->. apply N.eqb_neq in Hb as ->.
  by apply N.ltb_ge in Hc as ->.
Qed.

Lemma surrogate_raw c tail :
  is_lead c || is_trail c = true →
  parse_chars (c :: tail) = '(t, rest) ← parse_chars tail; Some (c :: t, rest).
Proof.
  unfold is_lead, is_trail, QUOTE, BACKSLASH.
  rewrite orb_true_iff, !andb_true_iff, !N.leb_le. intros H.
  apply parse_chars_raw; unfold QUOTE, BACKSLASH; lia.
Qed.

Lemma parse_chars_unit c tail :
  parse_chars (quote_unit c ++ tail)
  = '(t, rest) ← parse_chars tail; Some (c :: t, rest).
Proof.
  unfold quote_unit.
  repeat match goal with
         | |- context [if ?x =? ?y then _ else _] =>
             destruct (N.eqb_spec x y) as [->|?]; [done|]
         end.
  destruct ((c <? 32) || is_lead c || is_trail c) eqn:E.
  - apply parse_chars_escape. revert E. unfold is_lead, is_trail.
    rewrite !orb_true_iff, !andb_true_iff, N.ltb_lt, !N.leb_le. lia.
  - apply parse_chars_raw; [done..|].
    apply orb_false_iff in E as [E _]. apply orb_false_iff in E as [E _].
    by apply N.ltb_ge in E.
Qed.

(** Reading back a quoted string yields the string, whatever code
    units it holds. *)
Lemma parse_chars_quote_units s rest :
  parse_chars (quote_units s ++ QUOTE :: rest) = Some (s, rest).
Proof.
  cut ((∀ rest, parse_chars (quote_units s ++ QUOTE :: rest) = Some (s, rest))
       ∧ ∀ c rest, parse_chars (quote_units (c :: s) ++ QUOTE :: rest)
                   = Some (c :: s, rest)).
  { intros [H _]. apply H. }
  induction s as [|d r [IH1 IH2]].
  - split; [done|]. intros c rest'. cbn [quote_units].
    destruct (is_lead c) eqn:Hc.
    + rewrite parse_chars_escape; [done|].
      revert Hc. unfold is_lead. rewrite andb_true_iff, !N.leb_le. lia.
    + rewrite <- app_assoc, parse_chars_unit. done.
  - split; [apply IH2|]. intros c rest'. cbn [quote_units].
    destruct (is_lead c) eqn:Hc.
    + destruct (is_trail d) eqn:Hd.
      * cbn [app]. rewrite surrogate_raw by (by rewrite Hc).
        rewrite surrogate_raw by (rewrite Hd; apply orb_true_r).
        by rewrite IH1.
      * rewrite <- app_assoc, parse_chars_escape.
        -- by rewrite (IH2 d).
        -- revert Hc. unfold is_lead. rewrite andb_true_iff, !N.leb_le. lia.
    + rewrite <- app_assoc, parse_chars_unit. by rewrite (IH2 d).
Qed.

(** ** JSON texts of plain values *)

(** Decide the tests the parser makes on the punctuation in front of
    it. *)
Ltac punctuation :=
  cbn [skip_ws is_ws app mbind option_bind N.eqb Pos.eqb orb
       QUOTE BACKSLASH LBRACE RBRACE LBRACKET RBRACKET COLON COMMA].

Lemma parse_value_string f s rest :
  parse_value (S f) (quote s ++ rest) = Some (JStr s, rest).
Proof.
  unfold quote. rewrite <- app_comm_cons, <- app_assoc.
  cbn [parse_value]. punctuation.
  by rewrite parse_chars_quote_units.
Qed.

(** Induction over values, with the hypothesis for every item of an
    array and every property value of an object. *)
Lemma json_nested_ind (Q : json → Prop) :
  Q JNull → (∀ b, Q (JBool b)) → (∀ n, Q (JNum n)) → (∀ s, Q (JStr s)) →
  (∀ items, Forall Q items → Q (JArr items)) →
  (∀ props, Forall (fun kv => Q kv.2) props → Q (JObj props)) →
  ∀ v, Q v.
Proof.
  intros Hnull Hbool Hnum Hstr Harr Hobj. fix IH 1.
  intros [|b|n|s|items|props]; [done..| |].
  - apply Harr. induction items as [|v items IHitems]; constructor; [apply IH|done].
  - apply Hobj. induction props as [|[k v] props IHprops]; constructor;
      [apply IH|done].
Qed.

Lemma set_prop_fresh (acc : list (jsstring * json)) (kv : jsstring * json) :
  kv.1 ∉ acc.*1 → set_prop acc kv = acc ++ [kv].
Proof.
  induction acc as [|[k' v'] acc IH]; [done|]. cbn [fmap list_fmap fst].
  rewrite not_elem_of_cons. intros [Hne Hacc]. cbn [set_prop].
  rewrite bool_decide_eq_false_2 by done. by rewrite IH.
Qed.

(** Defining properties whose keys are all different keeps them all, in
    order. *)
Lemma define_distinct (props acc : list (jsstring * json)) :
  NoDup (acc.*1 ++ props.*1) → foldl set_prop acc props = acc ++ props.
Proof.
  revert acc. induction props as [|kv props IH]; intros acc Hnd.
  - by rewrite app_nil_r.
  - cbn [foldl]. rewrite set_prop_fresh.
    + rewrite IH; [by rewrite <- app_assoc|].
      rewrite fmap_app. cbn [fmap list_fmap]. by rewrite <- app_assoc.
    + cbn [fmap list_fmap] in Hnd. apply NoDup_app in Hnd as (_ & Hdisj & _).
      intros Hin. apply (Hdisj _ Hin). apply list_elem_of_here.
Qed.

(** The text of a plain value starts with a character that is neither
    white space nor a closing bracket. *)
Lemma stringify_head (v : json) :
  plain v = true →
  ∃ c t, JSON_stringify v = c :: t ∧ is_ws c = false ∧ (c =? RBRACKET) = false.
Proof. destruct v as [|[|]|n|s|items|props]; intros Hp; try done; by eexists _, _. Qed.

(** Lengths of concatenations, for the fuel bounds. *)
Ltac lengths := repeat (rewrite length_app || cbn [length]).
Ltac lengths_in H := repeat (rewrite length_app in H || cbn [length] in H).

Lemma parse_elements_plain (items : list json) :
  items ≠ [] → Forall reads_back items → forallb plain items = true →
  ∀ rest g,
    (2 * length (join_comma (map JSON_stringify items) ++ RBRACKET :: rest) + 1 ≤ g)%nat →
    parse_elements g (join_comma (map JSON_stringify items) ++ RBRACKET :: rest)
    = Some (items, rest).
Proof.
  induction items as [|v [|v' more] IH]; intros Hne Hall Hplain rest g Hg; [done| |].
  - apply Forall_cons in Hall as [Hv _]. cbn [forallb] in Hplain.
    apply andb_true_iff in Hplain as [Hpv _].
    destruct g as [|g]; [lia|]. cbn [map join_comma] in *. cbn [parse_elements].
    rewrite (Hv Hpv) by lia. by punctuation.
  - apply Forall_cons in Hall as [Hv Hall]. cbn [forallb] in Hplain.
    apply andb_true_iff in Hplain as [Hpv Hplain].
    destruct g as [|g]; [lia|].
    assert (join_comma (map JSON_stringify (v :: v' :: more)) ++ RBRACKET :: rest
            = JSON_stringify v
              ++ COMMA :: (join_comma (map JSON_stringify (v' :: more))
                           ++ RBRACKET :: rest)) as Htext.
    { change (join_comma (map JSON_stringify (v :: v' :: more)))
        with (JSON_stringify v
                ++ COMMA :: join_comma (map JSON_stringify (v' :: more))).
      by rewrite <- app_assoc. }
    rewrite Htext in Hg |- *. clear Htext. lengths_in Hg. cbn [parse_elements].
    rewrite (Hv Hpv) by (lengths; lia). punctuation.
    rewrite IH by (done || (lengths; lia)). done.
Qed.

Lemma parse_members_plain (props : list (jsstring * json)) :
  props ≠ [] → Forall (fun kv => reads_back kv.2) props →
  forallb (fun kv => plain kv.2) props = true →
  ∀ rest g,
    (2 * length (join_comma (map (fun kv => quote kv.1 ++ COLON :: JSON_stringify kv.2)
                               props) ++ RBRACE :: rest) ≤ g)%nat →
    parse_members g
      (join_comma (map (fun kv => quote kv.1 ++ COLON :: JSON_stringify kv.2) props)
       ++ RBRACE :: rest)
    = Some (props, rest).
Proof.
  induction props as [|[k v] [|kv' more] IH]; intros Hne Hall Hplain rest g Hg;
    [done| |].
  - apply Forall_cons in Hall as [Hv _]. cbn [forallb snd] in Hplain, Hv.
    apply andb_true_iff in Hplain as [Hpv _].
    assert (join_comma (map (fun kv => quote kv.1 ++ COLON :: JSON_stringify kv.2)
                          [(k, v)]) ++ RBRACE :: rest
            = QUOTE :: quote_units k
              ++ QUOTE :: COLON :: (JSON_stringify v ++ RBRACE :: rest)) as Htext.
    { cbn [map join_comma fst snd]. unfold quote.
      repeat (rewrite <- app_assoc || rewrite <- app_comm_cons). done. }
    rewrite Htext in Hg |- *. clear Htext. lengths_in Hg.
    destruct g as [|g]; [lia|].
    cbn [parse_members]. punctuation. rewrite parse_chars_quote_units. punctuation.
    rewrite (Hv Hpv) by (lengths; lia). by punctuation.
  - apply Forall_cons in Hall as [Hv Hall]. cbn [forallb snd] in Hplain, Hv.
    apply andb_true_iff in Hplain as [Hpv Hplain].
    assert (join_comma (map (fun kv => quote kv.1 ++ COLON :: JSON_stringify kv.2)
                          ((k, v) :: kv' :: more)) ++ RBRACE :: rest
            = QUOTE :: quote_units k
              ++ QUOTE :: COLON ::
                 (JSON_stringify v
                  ++ COMMA ::
                     (join_comma
                        (map (fun kv => quote kv.1 ++ COLON :: JSON_stringify kv.2)
                           (kv' :: more)) ++ RBRACE :: rest))) as Htext.
    { change (join_comma (map ?f ((k, v) :: kv' :: more)))
        with ((quote k ++ COLON :: JSON_stringify v)
                ++ COMMA :: join_comma (map f (kv' :: more))).
      unfold quote at 1.
      repeat (rewrite <- app_assoc || rewrite <- app_comm_cons). done. }
    rewrite Htext in Hg |- *. clear Htext. lengths_in Hg.
    destruct g as [|g]; [lia|].
    cbn [parse_members]. punctuation. rewrite parse_chars_quote_units. punctuation.
    rewrite (Hv Hpv) by (lengths; lia). punctuation.
    rewrite IH by (done || (lengths; lia)). done.
Qed.

Lemma plain_reads_back (v : json) : reads_back v.
Proof.
  induction v as [|b|n|s|items IH|props IH] using json_nested_ind;
    intros Hplain rest g Hg.
  - destruct g as [|g]; [cbn in Hg; lia|]. reflexivity.
  - destruct g as [|g]; [destruct b; cbn in Hg; lia|]. by destruct b.
  - done.
  - destruct g as [|g]; [unfold quote in Hg; cbn in Hg; lia|].
    apply parse_value_string.
  - cbn [JSON_stringify plain] in *.
    rewrite <- app_comm_cons, <- app_assoc in *. cbn [length app] in Hg.
    destruct g as [|g]; [lia|].
    destruct items as [|v more]; [reflexivity|].
    assert (plain v = true) as Hpv by (cbn [forallb] in Hplain; by destruct (plain v)).
    destruct (stringify_head v Hpv) as (c & t & Hhead & Hws & Hclose).
    assert (∃ t', join_comma (map JSON_stringify (v :: more)) = c :: t') as [t' Ht'].
    { cbn [map join_comma]. rewrite Hhead. destruct (map JSON_stringify more); eauto. }
    cbn [parse_value]. punctuation. rewrite Ht'. cbn [app skip_ws]. rewrite Hws, Hclose.
    rewrite (app_comm_cons t' _ c), <- Ht'.
    rewrite parse_elements_plain by (done || (cbn [app]; lia)). done.
  - cbn [JSON_stringify plain] in *.
    apply andb_true_iff in Hplain as [Hkeys Hplain].
    apply bool_decide_eq_true in Hkeys.
    rewrite <- app_comm_cons, <- app_assoc in *. cbn [length app] in Hg.
    destruct g as [|g]; [lia|].
    destruct props as [|[k v] more]; [reflexivity|].
    set (member := fun kv : jsstring * json => quote kv.1 ++ COLON :: JSON_stringify kv.2)
      in *.
    assert (∃ t', join_comma (map member ((k, v) :: more)) = QUOTE :: t') as [t' Ht'].
    { cbn [map join_comma].
      destruct (map member more); unfold member, quote; cbn [fst app]; eauto. }
    cbn [parse_value]. punctuation. rewrite Ht'. punctuation.
    rewrite (app_comm_cons t' _ QUOTE), <- Ht'. subst member.
    rewrite parse_members_plain by (done || (cbn [app]; lia)).
    cbn [mbind option_bind]. by rewrite define_distinct.
Qed.

Lemma parse_stringify_plain (v : json) :
  plain v = true → JSON_parse (JSON_stringify v) = Some v.
Proof.
  intros Hplain. unfold JSON_parse.
  pose proof (plain_reads_back v Hplain [] (2 * length (JSON_stringify v) + 2)%nat)
    as Hread.
  rewrite app_nil_r in Hread. by rewrite Hread by lia.
Qed.

(** ** JSON: snapshots survive serialization *)

Lemma plain_descriptor (i : Image.t) : plain (Image.to_json i) = true.
Proof. destruct i as [id url [original|] title]; vm_compute; reflexivity. Qed.

Lemma plain_snapshot (images : list Image.t) : plain (snapshot images) = true.
Proof.
  unfold snapshot. cbn [plain]. induction images as [|i r IH]; [done|].
  cbn [map forallb]. by rewrite plain_descriptor, IH.
Qed.

(** A serialized snapshot parses back to the snapshot. *)
Lemma parse_stringify_snapshot images :
  JSON_parse (JSON_stringify (snapshot images)) = Some (snapshot images).
Proof. apply parse_stringify_plain, plain_snapshot. Qed.

(** Descriptors that are the same object are the same descriptor. *)
Lemma descriptor_inj (i i' : Image.t) : Image.to_json i' = Image.to_json i → i' = i.
Proof.
  destruct i as [a b [c|] d], i' as [a' b' [c'|] d']; cbn; intros [=]; by subst.
Qed.

(** ** JSON.parse has fuel to spare *)

Lemma skip_ws_length s : (length (skip_ws s) ≤ length s)%nat.
Proof.
  induction s as [|c r IH]; cbn [skip_ws]; [done|].
  destruct (is_ws c); cbn [length]; lia.
Qed.

Lemma parse_chars_length s :
  ∀ t r, parse_chars s = Some (t, r) → (length r ≤ length s)%nat.
Proof.
  induction s as [s IH] using (induction_ltof1 _ (@length N)). unfold ltof in IH.
  intros t r. destruct s as [|c s1]; [done|]. cbn [parse_chars].
  destruct (c =? QUOTE).
  { intros [= <- <-]. cbn [length]. lia. }
  destruct (c =? BACKSLASH).
  - destruct s1 as [|e s2]; [done|]. destruct (e =? 117).
    + destruct s2 as [|a [|b [|c' [|d s3]]]]; try done.
      destruct (hex4 a b c' d); [|done]. cbn [mbind option_bind].
      destruct (parse_chars s3) as [[t' r']|] eqn:Hs; [|done].
      intros [= <- <-]. apply IH in Hs; cbn [length] in *; lia.
    + destruct (simple_escape e); [|done]. cbn [mbind option_bind].
      destruct (parse_chars s2) as [[t' r']|] eqn:Hs; [|done].
      intros [= <- <-]. apply IH in Hs; cbn [length] in *; lia.
  - destruct (c <? 32); [done|].
    destruct (parse_chars s1) as [[t' r']|] eqn:Hs; [|done].
    intros [= <- <-]. apply IH in Hs; cbn [length] in *; lia.
Qed.

Lemma span_digits_length s ds r :
  span_digits s = (ds, r) → (length r ≤ length s)%nat.
Proof.
  revert ds r. induction s as [|c s IH]; intros ds r; cbn [span_digits].
  - by intros [= <- <-].
  - destruct (is_digit c); [|intros [= <- <-]; done].
    destruct (span_digits s) as [ds' r'] eqn:Hs. intros [= <- <-].
    specialize (IH _ _ eq_refl). cbn [length]. lia.
Qed.

Lemma scan_digits1_length s ds r :
  scan_digits1 s = Some (ds, r) → (length r ≤ length s)%nat.
Proof.
  unfold scan_digits1. destruct (span_digits s) as [[|d ds'] r'] eqn:Hs; [done|].
  intros [= <- <-]. by eapply span_digits_length.
Qed.

Lemma strip_prefix_length p s r :
  strip_prefix p s = Some r → (length r ≤ length s)%nat.
Proof.
  revert s. induction p as [|a p IH]; intros [|b s]; cbn [strip_prefix]; try done.
  - by intros [= <-].
  - by intros [= <-].
  - destruct (a =? b); [|done]. intros H%IH. cbn [length]. lia.
Qed.

Lemma scan_number_length s n r :
  scan_number s = Some (n, r) → (length r ≤ length s)%nat.
Proof.
  unfold scan_number.
  destruct (match s with
            | c :: r0 => if c =? 45 then ([c], r0) else ([], s)
            | [] => ([], [])
            end) as [sign s0] eqn:Hsign.
  assert (length s0 ≤ length s)%nat as H0.
  { destruct s as [|c s']; [by injection Hsign as <- <-|].
    destruct (c =? 45); injection Hsign as <- <-; cbn [length]; lia. }
  destruct (scan_int s0) as [[i s1]|] eqn:Hi; [|done]. cbn [mbind option_bind].
  assert (length s1 ≤ length s0)%nat as H1.
  { unfold scan_int in Hi. destruct s0 as [|c s']; [done|].
    destruct (c =? 48); [injection Hi as <- <-; cbn [length]; lia|].
    destruct (is_digit c); [|done].
    destruct (span_digits s') as [ds r'] eqn:Hsp. injection Hi as <- <-.
    apply span_digits_length in Hsp. cbn [length]. lia. }
  destruct (scan_frac s1) as [[f s2]|] eqn:Hf; [|done]. cbn [mbind option_bind].
  assert (length s2 ≤ length s1)%nat as H2.
  { unfold scan_frac in Hf. destruct s1 as [|c s']; [by injection Hf as <- <-|].
    destruct (c =? 46); [|by injection Hf as <- <-].
    destruct (scan_digits1 s') as [[ds r']|] eqn:Hsp; [|done].
    injection Hf as <- <-. apply scan_digits1_length in Hsp. cbn [length]. lia. }
  destruct (scan_exp s2) as [[e s3]|] eqn:He; [|done]. cbn [mbind option_bind].
  assert (length s3 ≤ length s2)%nat as H3.
  { unfold scan_exp in He. destruct s2 as [|c s']; [by injection He as <- <-|].
    destruct ((c =? 101) || (c =? 69)); [|by injection He as <- <-].
    destruct s' as [|g s'']; [done|].
    destruct ((g =? 43) || (g =? 45)).
    - destruct (scan_digits1 s'') as [[ds r']|] eqn:Hsp; [|done].
      injection He as <- <-. apply scan_digits1_length in Hsp. cbn [length]. lia.
    - destruct (scan_digits1 (g :: s'')) as [[ds r']|] eqn:Hsp; [|done].
      injection He as <- <-. apply scan_digits1_length in Hsp. cbn [length] in *. lia. }
  intros [= <- <-]. lia.
Qed.

Lemma parse_literal_length s v r :
  parse_literal s = Some (v, r) → (length r ≤ length s)%nat.
Proof.
  unfold parse_literal.
  destruct (strip_prefix (js "null") s) eqn:H1.
  { intros [= <- <-]. by eapply strip_prefix_length. }
  destruct (strip_prefix (js "true") s) eqn:H2.
  { intros [= <- <-]. by eapply strip_prefix_length. }
  destruct (strip_prefix (js "false") s) eqn:H3.
  { intros [= <- <-]. by eapply strip_prefix_length. }
  destruct (scan_number s) as [[n r']|] eqn:H4; [|done].
  intros [= <- <-]. by eapply scan_number_length.
Qed.

(** Replay in the goal the tests already decided in the context. *)
Ltac replay :=
  cbn [mbind option_bind];
  repeat (match goal with
          | H : ?x = _ |- context [?x] => rewrite H
          end;
          cbn [mbind option_bind]).

(** A parse that succeeds with some fuel consumes input and succeeds
    with any fuel above twice the length of the text. *)
Lemma parse_fuel f :
  (∀ s v r, parse_value f s = Some (v, r) →
     (length r ≤ length s)%nat ∧
     ∀ g, (2 * length s ≤ g)%nat → parse_value g s = Some (v, r)) ∧
  (∀ s vs r, parse_elements f s = Some (vs, r) →
     (length r ≤ length s)%nat ∧
     ∀ g, (2 * length s + 1 ≤ g)%nat → parse_elements g s = Some (vs, r)) ∧
  (∀ s ps r, parse_members f s = Some (ps, r) →
     (length r ≤ length s)%nat ∧
     ∀ g, (2 * length s ≤ g)%nat → parse_members g s = Some (ps, r)).
Proof.
  induction f as [|f (IHv & IHe & IHm)]; [by repeat split|].
  split; [|split].
  - intros s v r H. cbn [parse_value] in H.
    pose proof (skip_ws_length s) as Hws.
    destruct (skip_ws s) as [|c s1] eqn:Hs; [done|]. cbn [length] in Hws.
    destruct (c =? QUOTE) eqn:Hq.
    { destruct (parse_chars s1) as [[t r']|] eqn:Hc; [|done].
      injection H as <- <-. apply parse_chars_length in Hc as Hl.
      split; [lia|]. intros [|g] Hg; [lia|]. cbn [parse_value]. by replay. }
    destruct (c =? LBRACKET) eqn:Hb.
    { pose proof (skip_ws_length s1) as Hws1.
      destruct (skip_ws s1) as [|c' s2] eqn:Hs1; [done|]. cbn [length] in Hws1.
      destruct (c' =? RBRACKET) eqn:Hc'.
      - injection H as <- <-. split; [lia|].
        intros [|g] Hg; [lia|]. cbn [parse_value]. by replay.
      - destruct (parse_elements f s1) as [[items r']|] eqn:He; [|done].
        injection H as <- <-. destruct (IHe _ _ _ He) as [Hl Hg'].
        split; [lia|]. intros [|g] Hg; [lia|]. cbn [parse_value]. replay.
        by rewrite Hg' by lia. }
    destruct (c =? LBRACE) eqn:Ho.
    { pose proof (skip_ws_length s1) as Hws1.
      destruct (skip_ws s1) as [|c' s2] eqn:Hs1; [done|]. cbn [length] in Hws1.
      destruct (c' =? RBRACE) eqn:Hc'.
      - injection H as <- <-. split; [lia|].
        intros [|g] Hg; [lia|]. cbn [parse_value]. by replay.
      - destruct (parse_members f s1) as [[ps r']|] eqn:He; [|done].
        injection H as <- <-. destruct (IHm _ _ _ He) as [Hl Hg'].
        split; [lia|]. intros [|g] Hg; [lia|]. cbn [parse_value]. replay.
        by rewrite Hg' by lia. }
    apply parse_literal_length in H as Hl. cbn [length] in Hl.
    split; [lia|]. intros [|g] Hg; [lia|]. cbn [parse_value]. by replay.
  - intros s vs r H. cbn [parse_elements] in H.
    destruct (parse_value f s) as [[v r1]|] eqn:Hv; [|done].
    cbn [mbind option_bind] in H. destruct (IHv _ _ _ Hv) as [Hl Hg'].
    pose proof (skip_ws_length r1) as Hws.
    destruct (skip_ws r1) as [|c r2] eqn:Hs; [done|]. cbn [length] in Hws.
    destruct (c =? COMMA) eqn:Hc.
    { destruct (parse_elements f r2) as [[vs' r']|] eqn:He; [|done].
      injection H as <- <-. destruct (IHe _ _ _ He) as [Hl2 Hg2].
      split; [lia|]. intros [|g] Hg; [lia|]. cbn [parse_elements].
      rewrite Hg' by lia. replay. by rewrite Hg2 by lia. }
    destruct (c =? RBRACKET) eqn:Hb; [|done].
    injection H as <- <-. split; [lia|].
    intros [|g] Hg; [lia|]. cbn [parse_elements]. rewrite Hg' by lia. by replay.
  - intros s ps r H. cbn [parse_members] in H.
    pose proof (skip_ws_length s) as Hws.
    destruct (skip_ws s) as [|c s1] eqn:Hs; [done|]. cbn [length] in Hws.
    destruct (c =? QUOTE) eqn:Hq; [|done].
    destruct (parse_chars s1) as [[k r1]|] eqn:Hk; [|done].
    cbn [mbind option_bind] in H. apply parse_chars_length in Hk as Hlk.
    pose proof (skip_ws_length r1) as Hws1.
    destruct (skip_ws r1) as [|c1 r2] eqn:Hs1; [done|]. cbn [length] in Hws1.
    destruct (c1 =? COLON) eqn:Hc1; [|done].
    destruct (parse_value f r2) as [[v r3]|] eqn:Hv; [|done].
    cbn [mbind option_bind] in H. destruct (IHv _ _ _ Hv) as [Hl Hg'].
    pose proof (skip_ws_length r3) as Hws3.
    destruct (skip_ws r3) as [|c3 r4] eqn:Hs3; [done|]. cbn [length] in Hws3.
    destruct (c3 =? COMMA) eqn:Hc3.
    { destruct (parse_members f r4) as [[ps' r']|] eqn:Hm; [|done].
      injection H as <- <-. destruct (IHm _ _ _ Hm) as [Hl2 Hg2].
      split; [lia|]. intros [|g] Hg; [lia|]. cbn [parse_members]. replay.
      rewrite Hg' by lia. replay. by rewrite Hg2 by lia. }
    destruct (c3 =? RBRACE) eqn:Hb; [|done].
    injection H as <- <-. split; [lia|].
    intros [|g] Hg; [lia|]. cbn [parse_members]. replay.
    rewrite Hg' by lia. by replay.
Qed.

(** [JSON_parse] accepts every text the grammar accepts: its fuel is
    never what makes it fail. *)
Lemma JSON_parse_complete f text v rest :
  parse_value f text = Some (v, rest) → skip_ws rest = [] →
  JSON_parse text = Some v.
Proof.
  intros H Hrest. destruct (proj1 (parse_fuel f) _ _ _ H) as [_ Hg].
  unfold JSON_parse. rewrite Hg by lia. cbn [mbind option_bind]. by rewrite Hrest.
Qed.

(** ** Running programs *)

Section Running.
Context {E : Type} (env : environment E).

Lemma run_bind {A B} (p : prog A) (f : A → prog B) (w : world E) :
  run env (p ≫= f) w =
  match run env p w with
  | (Resolved a, w1, c1) =>
      let '(r, w2, c2) := run env (f a) w1 in (r, w2, c1 ++ c2)
  | (Rejected e, w1, c1) => (Rejected e, w1, c1)
  end.
Proof.
  change (p ≫= f) with (bind p f). revert w.
  induction p as [a|e|k IH|c k IH]; intros w; cbn [bind run].
  - by destruct (run env (f a) w) as [[r w2] c2].
  - done.
  - apply IH.
  - destruct (env c w) as [o w1]. rewrite IH.
    by destruct (run env (k o) w1) as [[[a|e] w2] c1];
      [destruct (run env (f a) w2) as [[r w3] c2]|].
Qed.

Lemma run_try_catch {A} (p : prog A) (h : error → prog A) (w : world E) :
  run env (try_catch p h) w =
  match run env p w with
  | (Resolved a, w1, c1) => (Resolved a, w1, c1)
  | (Rejected e, w1, c1) =>
      let '(r, w2, c2) := run env (h e) w1 in (r, w2, c1 ++ c2)
  end.
Proof.
  revert w. induction p as [a|e|k IH|c k IH]; intros w; cbn [try_catch run].
  - done.
  - by destruct (run env (h e) w) as [[r w2] c2].
  - apply IH.
  - destruct (env c w) as [o w1]. rewrite IH.
    by destruct (run env (k o) w1) as [[[a|e] w2] c1];
      [|destruct (run env (h e) w2) as [[r w3] c2]].
Qed.

Lemma run_await (c : call) (w : world E) :
  run env (await c) w = ((env c w).1, (env c w).2, [c]).
Proof.
  unfold await. cbn [run]. by destruct (env c w) as [[a|e] w1].
Qed.

Lemma run_read_connected (w : world E) :
  run env read_connected w = (Resolved (redisConnected w), w, []).
Proof. done. Qed.

(** The calls of a run are calls the program can make. *)
Lemma issues_run {R} (Q : call → Prop) (p : prog R) (w : world E) :
  issues Q p → Forall Q (run env p w).2.
Proof.
  intros Hp. revert w. induction Hp as [r|e|k _ IH|c k Hc _ IH]; intros w; cbn [run].
  - constructor.
  - constructor.
  - apply IH.
  - destruct (env c w) as [o w1]. specialize (IH o w1).
    destruct (run env (k o) w1) as [[r w2] calls]. by constructor.
Qed.
End Running.

Lemma issues_bind (Q : call → Prop) {A B} (p : prog A) (f : A → prog B) :
  issues Q p → (∀ a, issues Q (f a)) → issues Q (p ≫= f).
Proof.
  change (p ≫= f) with (bind p f).
  induction 1; intros Hf; cbn [bind]; try constructor; auto.
Qed.

Lemma issues_try_catch (Q : call → Prop) {A} (p : prog A) (h : error → prog A) :
  issues Q p → (∀ e, issues Q (h e)) → issues Q (try_catch p h).
Proof. induction 1; intros Hh; cbn [try_catch]; try constructor; auto. Qed.

Lemma issues_await (Q : call → Prop) (c : call) : Q c → issues Q (await c).
Proof. intros Hc. constructor; [done|]. intros [a|e]; constructor. Qed.

Lemma issues_read_connected (Q : call → Prop) : issues Q read_connected.
Proof. constructor. intros b. constructor. Qed.

Lemma issues_array_map (Q : call → Prop) {A B} (f : A → prog B) (xs : list A) :
  (∀ x, issues Q (f x)) → issues Q (array_map f xs).
Proof.
  intros Hf. induction xs as [|x r IH]; cbn [array_map]; [constructor|].
  apply issues_bind; [done|]. intros y.
  apply issues_bind; [done|]. intros ys. constructor.
Qed.

(** ** The fetcher *)

Section Handlers.
Context (P : platform) {E : Type} (env : environment E).

Lemma run_describe (x : Resource.t) (w : world E) :
  run env (describe P x) w =
  match Resource.public_id x with
  | Some id =>
      match cloudinary_url P id display_options with
      | Resolved url =>
          (Resolved {| Image.public_id := id;
                       Image.url := url;
                       Image.original_url := Resource.secure_url x;
                       Image.title := default [] (pop (split SLASH id)) |}, w, [])
      | Rejected e => (Rejected e, w, [])
      end
  | None => (Rejected (type_error P), w, [])
  end.
Proof.
  unfold describe. destruct (Resource.public_id x); [|done].
  by destruct (cloudinary_url P _ _).
Qed.

(** The callback goes through every resource, or throws at the first
    unreadable one. *)
Lemma run_describe_all (rs : list Resource.t) (w : world E) :
  (∃ images,
      existsb (unreadable P) rs = false ∧
      run env (array_map (describe P) rs) w = (Resolved images, w, []) ∧
      Forall2 (describes P) rs images)
  ∨ (existsb (unreadable P) rs = true ∧
     ∃ e, run env (array_map (describe P) rs) w = (Rejected e, w, [])).
Proof.
  induction rs as [|x r IH]; cbn [array_map existsb].
  - left. exists []. by repeat split.
  - rewrite run_bind, run_describe. unfold unreadable at 1 3.
    destruct (Resource.public_id x) as [id|] eqn:Hid; [|right; eauto].
    change (cloudinary_url P id display_options) with (display_url P id).
    destruct (display_url P id) as [url|e] eqn:Hurl; [|right; eauto].
    cbn [orb]. rewrite run_bind.
    destruct IH as [(images & Hall & -> & Hdesc)|(Hall & e & ->)]; [left|right; eauto].
    eexists. split; [done|]. split; [done|]. constructor; [|done].
    exists id. split; [done|]. split; [done|]. split; [done|]. split; [done|].
    cbn [Image.title]. by destruct (pop_split_some SLASH id) as [t ->].
Qed.

(** A run of the fetcher is one search; it returns the descriptors of
    the resources, or raises the upstream error. *)
Lemma run_fetch (w : world E) :
  (∃ r rs images,
      (env image_search w).1 = Resolved r ∧ resources r = Some rs ∧
      transformation_throws P r = false ∧
      run env (fetchImagesFromCloudinary P) w
      = (Resolved images, (env image_search w).2, [image_search]) ∧
      Forall2 (describes P) rs images)
  ∨ (fetch_fails P (env image_search w).1 = true ∧
     run env (fetchImagesFromCloudinary P) w
     = (Rejected upstream_error, (env image_search w).2, [image_search])).
Proof.
  unfold fetchImagesFromCloudinary.
  rewrite run_try_catch, run_bind, (run_await env image_search).
  fold image_search.
  destruct (env image_search w) as [[r|e] w1]; cbn [fst snd]; [|by right].
  unfold fetch_fails, transformation_throws.
  destruct (resources r) as [rs|] eqn:Hrs; [|by right].
  destruct (run_describe_all rs w1) as [(images & Hall & -> & Hdesc)|(-> & e & ->)].
  - left. exists r, rs, images. by rewrite Hrs, Hall.
  - by right.
Qed.

Lemma run_fetch_shape (w : world E) :
  ∃ fetched,
    run env (fetchImagesFromCloudinary P) w
    = (fetched, (env image_search w).2, [image_search]) ∧
    ∀ e, fetched = Rejected e → e = upstream_error.
Proof.
  destruct (run_fetch w) as [(r & rs & images & _ & _ & _ & -> & _)|[_ ->]].
  - eexists. split; [done|]. by intros e [=].
  - eexists. split; [done|]. by intros e [= <-].
Qed.

(** ** The image route, path by path *)

(** The miss path with the handler's [catch] around it. *)
Lemma run_miss (w : world E) :
  run env (try_catch (fetch_and_cache P)
             (fun error => Ret (res_status_json 500 (failure_body error)))) w =
  match run env (fetchImagesFromCloudinary P) w with
  | (Rejected e, w1, c1) => (Resolved (res_status_json 500 (failure_body e)), w1, c1)
  | (Resolved images, w1, c1) =>
      if redisConnected w1 then
        let write :=
          RedisSetEx IMAGES_CACHE_KEY CACHE_TTL (JSON_stringify (snapshot images)) in
        match env write w1 with
        | (Resolved _, w2) => (Resolved (res_json (miss_body images)), w2, c1 ++ [write])
        | (Rejected e, w2) =>
            (Resolved (res_status_json 500 (failure_body e)), w2, c1 ++ [write])
        end
      else (Resolved (res_json (miss_body images)), w1, c1)
  end.
Proof.
  rewrite run_try_catch. unfold fetch_and_cache. rewrite run_bind.
  destruct (run env (fetchImagesFromCloudinary P) w) as [[[images|e] w1] c1].
  - rewrite run_bind, run_read_connected.
    destruct (redisConnected w1).
    + rewrite run_bind.
      rewrite (run_await env (RedisSetEx IMAGES_CACHE_KEY CACHE_TTL
                                (JSON_stringify (snapshot images)))).
      destruct (env _ w1) as [[[]|e] w2]; cbn [fst snd run]; by rewrite ?app_nil_r.
    + cbn. by rewrite ?app_nil_r.
  - cbn. by rewrite ?app_nil_r.
Qed.

Lemma run_get_images (w : world E) :
  run env (get_images P) w =
  if redisConnected w then
    match env (RedisGet IMAGES_CACHE_KEY) w with
    | (Rejected e, w1) =>
        (Resolved (res_status_json 500 (failure_body e)), w1, [RedisGet IMAGES_CACHE_KEY])
    | (Resolved (Some (c :: t)), w1) =>
        match JSON_parse (c :: t) with
        | Some data =>
            (Resolved (res_json (hit_body data)), w1, [RedisGet IMAGES_CACHE_KEY])
        | None =>
            (Resolved (res_status_json 500 (failure_body (syntax_error P (c :: t)))),
             w1, [RedisGet IMAGES_CACHE_KEY])
        end
    | (Resolved _, w1) =>
        let '(res, w2, calls) :=
          run env (try_catch (fetch_and_cache P)
                     (fun error => Ret (res_status_json 500 (failure_body error)))) w1 in
        (res, w2, RedisGet IMAGES_CACHE_KEY :: calls)
    end
  else
    run env (try_catch (fetch_and_cache P)
               (fun error => Ret (res_status_json 500 (failure_body error)))) w.
Proof.
  unfold get_images.
  cbn [mbind prog_bind bind read_connected await try_catch run].
  destruct (redisConnected w); [|done].
  cbn [try_catch run].
  destruct (env (RedisGet IMAGES_CACHE_KEY) w) as [[[[|c t]|]|e] w1];
    cbn [bind try_catch run]; try done.
  by destruct (JSON_parse (c :: t)).
Qed.
End Handlers.

Section Paths.
Context (P : platform) {E : Type} (env : environment E).

(** A response of the miss path never says [cached: true]. *)
Lemma miss_not_cached (w : world E) :
  ∀ r, (run env (try_catch (fetch_and_cache P)
                   (fun error => Ret (res_status_json 500 (failure_body error)))) w).1.1
       = Resolved r →
       get_prop (js "cached") (body r) ≠ Some (JBool true).
Proof.
  intros r. rewrite run_miss.
  destruct (run env (fetchImagesFromCloudinary P) w) as [[[images|e] w1] c1].
  - cbv zeta.
    destruct (redisConnected w1);
      [destruct (env (RedisSetEx _ _ _) w1) as [[[]|e] w2]|];
      intros [= <-]; done.
  - intros [= <-]. done.
Qed.

(** A response with [cached: true] comes from a run that made one
    call, the read of the cache entry. *)
Lemma hit_only_reads (w w' : world E) (r : response) (calls : list call) :
  run env (get_images P) w = (Resolved r, w', calls) →
  get_prop (js "cached") (body r) = Some (JBool true) →
  calls = [RedisGet IMAGES_CACHE_KEY] ∧ w' = (env (RedisGet IMAGES_CACHE_KEY) w).2.
Proof.
  rewrite run_get_images. destruct (redisConnected w).
  - destruct (env (RedisGet IMAGES_CACHE_KEY) w) as [[[[|c t]|]|e] w1]; cbn [snd].
    + pose proof (miss_not_cached w1) as Hmiss.
      destruct (run env _ w1) as [[res w2] calls2].
      intros [= -> -> <-] Hc. by destruct (Hmiss r).
    + destruct (JSON_parse (c :: t)); by intros [= <- <- <-].
    + pose proof (miss_not_cached w1) as Hmiss.
      destruct (run env _ w1) as [[res w2] calls2].
      intros [= -> -> <-] Hc. by destruct (Hmiss r).
    + by intros [= <- <- <-].
  - pose proof (miss_not_cached w) as Hmiss.
    destruct (run env _ w) as [[res w2] calls2].
    intros [= -> -> <-] Hc. by destruct (Hmiss r).
Qed.

(** ** What the handlers can call *)

Lemma fetch_issues (Q : call → Prop) :
  Q image_search → issues Q (fetchImagesFromCloudinary P).
Proof.
  intros Hq. apply issues_try_catch; [|intros; constructor].
  apply issues_bind; [by apply (issues_await Q image_search)|]. intros result.
  destruct (resources result); [|constructor].
  apply issues_array_map. intros x. unfold describe.
  destruct (Resource.public_id x); [|constructor].
  destruct (cloudinary_url P _ _); constructor.
Qed.

Lemma fetch_and_cache_issues (Q : call → Prop) :
  Q image_search →
  (∀ v, Q (RedisSetEx IMAGES_CACHE_KEY CACHE_TTL v)) →
  issues Q (fetch_and_cache P).
Proof.
  intros Hs Hw. apply issues_bind; [by apply fetch_issues|]. intros images.
  apply issues_bind; [apply issues_read_connected|]. intros [|].
  - apply issues_bind; [by apply (issues_await Q (RedisSetEx _ _ _))|].
    intros []. constructor.
  - apply issues_bind; constructor.
Qed.

Lemma get_images_issues (Q : call → Prop) :
  Q image_search →
  Q (RedisGet IMAGES_CACHE_KEY) →
  (∀ v, Q (RedisSetEx IMAGES_CACHE_KEY CACHE_TTL v)) →
  issues Q (get_images P).
Proof.
  intros Hs Hg Hw. apply issues_try_catch; [|intros; constructor].
  apply issues_bind; [apply issues_read_connected|]. intros [|].
  - apply issues_bind; [by apply (issues_await Q (RedisGet _))|]. intros [[|c t]|].
    + by apply fetch_and_cache_issues.
    + destruct (JSON_parse (c :: t)); constructor.
    + by apply fetch_and_cache_issues.
  - by apply fetch_and_cache_issues.
Qed.

Lemma health_issues (Q : call → Prop) : issues Q health.
Proof.
  apply issues_bind; [apply issues_read_connected|]. intros b. constructor.
Qed.

Lemma clear_cache_issues (Q : call → Prop) :
  Q (RedisDel IMAGES_CACHE_KEY) → issues Q clear_cache.
Proof.
  intros Hd. apply issues_try_catch; [|intros; constructor].
  apply issues_bind; [apply issues_read_connected|]. intros [|].
  - apply issues_bind; [by apply (issues_await Q (RedisDel _))|]. intros n. constructor.
  - constructor.
Qed.

Lemma on_sigint_issues (Q : call → Prop) : Q RedisQuit → issues Q on_sigint.
Proof.
  intros Hq. apply issues_bind; [apply issues_read_connected|]. intros [|].
  - apply issues_bind; [by apply (issues_await Q RedisQuit)|]. intros []. constructor.
  - apply issues_bind; constructor.
Qed.

Lemma run_clear_cache (w : world E) :
  run env clear_cache w =
  if redisConnected w then
    match env (RedisDel IMAGES_CACHE_KEY) w with
    | (Resolved _, w1) =>
        (Resolved (res_json (JObj [(js "success", JBool true);
                                   (js "message", JStr (js "Cache cleared"))])),
         w1, [RedisDel IMAGES_CACHE_KEY])
    | (Rejected e, w1) =>
        (Resolved (res_status_json 500 (failure_body e)), w1,
         [RedisDel IMAGES_CACHE_KEY])
    end
  else
    (Resolved (res_status_json 400
                 (JObj [(js "success", JBool false);
                        (js "message", JStr (js "Redis not connected"))])),
     w, []).
Proof.
  unfold clear_cache.
  cbn [mbind prog_bind bind read_connected await try_catch run].
  destruct (redisConnected w); [|done].
  cbn [try_catch run].
  by destruct (env (RedisDel IMAGES_CACHE_KEY) w) as [[n|e] w1].
Qed.
End Paths.

(** ** The cache-aside gate *)

Section Gate.
Context (P : platform).

(** C1, as amended. A request to the image route that finds
    [redisConnected] false at both of the handler's reads, before the
    cache lookup and again when the fetch has settled, makes exactly
    one call, the upstream search, and none to the cache store. When
    the fetcher returns [images] it answers with status 200 and
    [{success: true, cached: false, data: images}]; the only failure it
    can answer with is the fetcher's own error. The environment is
    arbitrary, so this holds whatever the cache operations would have
    done. *)
Theorem cache_down_serves_uncached {E} (env : environment E) (w : world E) :
  redisConnected w = false →
  redisConnected (env image_search w).2 = false →
  ∃ fetched,
    run env (fetchImagesFromCloudinary P) w
    = (fetched, (env image_search w).2, [image_search]) ∧
    run env (get_images P) w
    = (Resolved match fetched with
                | Resolved images =>
                    {| status := 200;
                       body := JObj [(js "success", JBool true);
                                     (js "cached", JBool false);
                                     (js "data", JArr (map Image.to_json images))] |}
                | Rejected e =>
                    {| status := 500;
                       body := JObj [(js "success", JBool false);
                                     (js "error", JStr (message e))] |}
                end,
       (env image_search w).2, [image_search]) ∧
    (∀ e, fetched = Rejected e → e = upstream_error) ∧
    Forall (fun c => is_cache_call c = false) (run env (get_images P) w).2.
Proof.
  intros Hdown Hstill.
  destruct (run_fetch_shape P env w) as (fetched & Hfetch & Herr).
  exists fetched. split; [done|].
  assert (run env (get_images P) w
          = (Resolved match fetched with
                      | Resolved images => res_json (miss_body images)
                      | Rejected e => res_status_json 500 (failure_body e)
                      end,
             (env image_search w).2, [image_search])) as Hrun.
  { rewrite run_get_images, Hdown, run_miss, Hfetch.
    destruct fetched as [images|e]; [|done]. by rewrite Hstill. }
  split; [by rewrite Hrun; destruct fetched|]. split; [done|].
  rewrite Hrun. by repeat constructor.
Qed.

(** The image route when the read of the cache entry resolves with a
    text that parses. *)
Lemma hit_in_any_environment {E} (env : environment E) (w : world E) v data :
  redisConnected w = true →
  (env (RedisGet IMAGES_CACHE_KEY) w).1 = Resolved (Some v) →
  JSON_parse v = Some data →
  run env (get_images P) w
  = (Resolved (res_json (hit_body data)),
     (env (RedisGet IMAGES_CACHE_KEY) w).2, [RedisGet IMAGES_CACHE_KEY]).
Proof.
  intros Hup Hget Hparse. rewrite run_get_images, Hup.
  destruct (env (RedisGet IMAGES_CACHE_KEY) w) as [o w1].
  cbn [fst snd] in *. subst o.
  destruct v as [|c t]; [done|]. by rewrite Hparse.
Qed.

(** C2, as amended. With the cache connected and holding, under the
    fixed key, an entry that has not expired and whose value is a text
    that [JSON.parse] reads as [data], the image route answers with
    status 200 and [{success: true, cached: true, data}] after a
    single call, the read of that key: the fetcher is not invoked and
    the store is as before. When the value is a serialized snapshot,
    [data] is that snapshot. *)
Theorem hit_serves_cached search (w : world redis) (e : entry) (data : json) :
  redisConnected w = true →
  store (ext w) !! IMAGES_CACHE_KEY = Some e →
  (now (ext w) < expires_at e)%Z →
  JSON_parse (value e) = Some data →
  run (live search) (get_images P) w
  = (Resolved {| status := 200;
                 body := JObj [(js "success", JBool true);
                               (js "cached", JBool true);
                               (js "data", data)] |},
     w, [RedisGet IMAGES_CACHE_KEY]) ∧
  (image_search ∉ (run (live search) (get_images P) w).2) ∧
  (∀ images, value e = JSON_stringify (JArr (map Image.to_json images)) →
             data = JArr (map Image.to_json images)).
Proof.
  intros Hup Hstore Hfresh Hparse.
  assert (run (live search) (get_images P) w
          = (Resolved (res_json (hit_body data)), w, [RedisGet IMAGES_CACHE_KEY]))
    as Hrun.
  { rewrite (hit_in_any_environment (live search) w (value e) data); [done..| |done].
    cbn [live fst]. unfold redis_get. rewrite Hstore. cbn [mbind option_bind].
    by rewrite bool_decide_eq_true_2. }
  split; [done|]. split.
  - rewrite Hrun. cbn [snd]. by intros [=]%list_elem_of_singleton.
  - intros images Hv. fold (snapshot images) in Hv |- *.
    rewrite Hv, parse_stringify_snapshot in Hparse. congruence.
Qed.

(** C3, as amended. With the flag set, a read of the fixed key that
    finds nothing and a fetcher that returns [images], a request makes
    three calls in order: the read, one upstream search, and a SETEX of
    the serialized images under the fixed key for 3600 seconds. When
    the SETEX resolves, the answer is status 200 with [{success: true,
    cached: false, data: images}]; when it is rejected, the answer is
    status 500 with the message of the rejection. Against a healthy
    store the write resolves, and the store then holds the serialized
    images, expiring 3600 seconds from now. *)
Theorem miss_fetches_and_stores :
  (∀ E (env : environment E) (w : world E) (images : list Image.t),
      redisConnected w = true →
      (env (RedisGet IMAGES_CACHE_KEY) w).1 = Resolved None →
      let w1 := (env (RedisGet IMAGES_CACHE_KEY) w).2 in
      (run env (fetchImagesFromCloudinary P) w1).1.1 = Resolved images →
      let w2 := (env image_search w1).2 in
      redisConnected w2 = true →
      let write :=
        RedisSetEx IMAGES_CACHE_KEY 3600
          (JSON_stringify (JArr (map Image.to_json images))) in
      run env (get_images P) w
      = (Resolved match (env write w2).1 with
                  | Resolved _ =>
                      {| status := 200;
                         body := JObj [(js "success", JBool true);
                                       (js "cached", JBool false);
                                       (js "data", JArr (map Image.to_json images))] |}
                  | Rejected e =>
                      {| status := 500;
                         body := JObj [(js "success", JBool false);
                                       (js "error", JStr (message e))] |}
                  end,
         (env write w2).2, [RedisGet IMAGES_CACHE_KEY; image_search; write])) ∧
  (∀ search (w : world redis) (images : list Image.t),
      redisConnected w = true →
      redis_get IMAGES_CACHE_KEY (ext w) = None →
      (run (live search) (fetchImagesFromCloudinary P) w).1.1 = Resolved images →
      let stored := JSON_stringify (JArr (map Image.to_json images)) in
      run (live search) (get_images P) w
      = (Resolved {| status := 200;
                     body := JObj [(js "success", JBool true);
                                   (js "cached", JBool false);
                                   (js "data", JArr (map Image.to_json images))] |},
         World true (redis_setEx IMAGES_CACHE_KEY 3600 stored (ext w)),
         [RedisGet IMAGES_CACHE_KEY; image_search;
          RedisSetEx IMAGES_CACHE_KEY 3600 stored]) ∧
      store (redis_setEx IMAGES_CACHE_KEY 3600 stored (ext w)) !! IMAGES_CACHE_KEY
      = Some {| value := stored; expires_at := now (ext w) + 3600 |} ∧
      redis_get IMAGES_CACHE_KEY (redis_setEx IMAGES_CACHE_KEY 3600 stored (ext w))
      = Some stored).
Proof.
  split.
  - intros E env w images Hup Hget w1 Hfetch w2 Hstill write.
    rewrite run_get_images, Hup. subst w2 w1.
    destruct (env (RedisGet IMAGES_CACHE_KEY) w) as [o w1].
    cbn [fst snd] in *. subst o.
    destruct (run_fetch_shape P env w1) as (fetched & Hshape & _).
    rewrite run_miss, Hshape. rewrite Hshape in Hfetch. cbn [fst] in Hfetch.
    subst fetched. rewrite Hstill. cbv zeta.
    change (RedisSetEx IMAGES_CACHE_KEY CACHE_TTL (JSON_stringify (snapshot images)))
      with write.
    by destruct (env write (env image_search w1).2) as [[[]|e] w3].
  - intros search w images Hup Hnone Hfetch stored.
    destruct (run_fetch_shape P (live search) w) as (fetched & Hshape & _).
    rewrite Hshape in Hfetch. cbn [fst snd live] in Hfetch, Hshape. subst fetched.
    split; [|split].
    + rewrite run_get_images, Hup. cbn [live]. rewrite Hnone, run_miss, Hshape.
      change (live search image_search w).2 with w.
      rewrite Hup. cbn [live]. by rewrite Hup.
    + cbn [redis_setEx store]. by rewrite lookup_insert_eq.
    + unfold redis_get. cbn [redis_setEx store now].
      rewrite lookup_insert_eq. cbn [mbind option_bind expires_at value].
      rewrite bool_decide_eq_true_2; [done|lia].
Qed.
End Gate.

(** ** Clearing the cache *)


(** ** Upstream failures *)

Section Upstream.
Context (P : platform).

(** C5, as amended. When the search the fetcher makes is rejected, or
    resolves with a response on which the transformation throws (no
    array of resources, a resource without a string identifier, or an
    identifier on which the URL builder throws), the fetcher makes
    that one search and raises the upstream error; on any other
    response it returns. A run of the image route that reaches the
    upstream in a state where the search so fails answers with status
    500 and [{success: false, error}] carrying that error's message,
    after a single search and without writing to the cache. *)
Theorem upstream_failure_surfaces {E} (env : environment E) :
  (∀ w, fetch_fails P (env image_search w).1 = true →
        run env (fetchImagesFromCloudinary P) w
        = (Rejected (Error (js "Failed to fetch images from Cloudinary")),
           (env image_search w).2, [image_search])) ∧
  (∀ w, fetch_fails P (env image_search w).1 = false →
        ∃ images,
          run env (fetchImagesFromCloudinary P) w
          = (Resolved images, (env image_search w).2, [image_search])) ∧
  (∀ w,
      let asked :=
        if redisConnected w then (env (RedisGet IMAGES_CACHE_KEY) w).2 else w in
      fetch_fails P (env image_search asked).1 = true →
      ∀ res w' calls,
        run env (get_images P) w = (res, w', calls) →
        image_search ∈ calls →
        res = Resolved
                {| status := 500;
                   body := JObj [(js "success", JBool false);
                                 (js "error",
                                  JStr (js "Failed to fetch images from Cloudinary"))] |} ∧
        w' = (env image_search asked).2 ∧
        (calls = [image_search] ∨ calls = [RedisGet IMAGES_CACHE_KEY; image_search])).
Proof.
  assert (∀ w, fetch_fails P (env image_search w).1 = true →
               run env (fetchImagesFromCloudinary P) w
               = (Rejected upstream_error, (env image_search w).2, [image_search]))
    as Hfetch.
  { intros w Hfail.
    destruct (run_fetch P env w) as [(r & rs & images & Hr & _ & Hm & _)|[_ H]];
      [|done].
    rewrite Hr in Hfail. cbn in Hfail. congruence. }
  split; [done|]. split.
  - intros w Hfine.
    destruct (run_fetch P env w) as [(r & rs & images & _ & _ & _ & Hrun & _)|[Hf _]];
      [eauto|congruence].
  - intros w asked Hfail res w' calls. subst asked. rewrite run_get_images.
    destruct (redisConnected w).
    + destruct (env (RedisGet IMAGES_CACHE_KEY) w) as [[[[|c t]|]|e] w1];
        cbn [snd] in Hfail.
      * rewrite run_miss, (Hfetch _ Hfail). intros [= <- <- <-] _. auto.
      * destruct (JSON_parse (c :: t)); intros [= <- <- <-] Hin;
          by apply list_elem_of_singleton in Hin.
      * rewrite run_miss, (Hfetch _ Hfail). intros [= <- <- <-] _. auto.
      * intros [= <- <- <-] Hin. by apply list_elem_of_singleton in Hin.
    + rewrite run_miss, (Hfetch _ Hfail). intros [= <- <- <-] _. auto.
Qed.

(** C6, as amended. When the search resolves with a response on which
    the transformation does not throw, the fetcher returns one
    descriptor per resource, in order: as many as the response holds,
    so at most 20 when the upstream returns no more resources than the
    search asks for. Each descriptor carries the resource's
    identifier, the display URL built from it, a title and, when the
    resource has one, its secure URL as original URL; these are the
    properties of the object it is. The title is the last segment of
    [public_id.split('/')], that is, it holds no slash and is the
    identifier itself or what follows the identifier's last slash. *)
Theorem fetcher_describes_resources {E} (env : environment E) (w : world E) r rs :
  (env image_search w).1 = Resolved r →
  resources r = Some rs →
  transformation_throws P r = false →
  ∃ images,
    run env (fetchImagesFromCloudinary P) w
    = (Resolved images, (env image_search w).2, [image_search]) ∧
    length images = length rs ∧
    (honours_max_results env → (length images ≤ 20)%nat) ∧
    Forall2 (describes P) rs images ∧
    Forall (fun image =>
              (SLASH ∉ Image.title image) ∧
              (Image.public_id image = Image.title image ∨
               ∃ p, Image.public_id image = p ++ SLASH :: Image.title image))
           images ∧
    Forall (fun image =>
              get_prop (js "public_id") (Image.to_json image)
              = Some (JStr (Image.public_id image)) ∧
              get_prop (js "url") (Image.to_json image)
              = Some (JStr (Image.url image)) ∧
              get_prop (js "original_url") (Image.to_json image)
              = JStr <$> Image.original_url image ∧
              get_prop (js "title") (Image.to_json image)
              = Some (JStr (Image.title image)))
           images.
Proof.
  intros Hr Hrs Hwell.
  destruct (run_fetch P env w) as [(r' & rs' & images & Hr' & Hrs' & _ & Hrun & Hd)|[Hf _]].
  - rewrite Hr in Hr'. injection Hr' as <-. rewrite Hrs in Hrs'. injection Hrs' as <-.
    exists images. split; [done|].
    pose proof (Forall2_length _ _ _ Hd) as Hlen.
    split; [done|]. split; [|split; [done|split]].
    + intros Hmax. specialize (Hmax _ _ _ _ _ Hr Hrs). lia.
    + clear -Hd. induction Hd as [|x image rs images (id & _ & Hid & _ & _ & Ht) _ IH];
        constructor; [|done].
      rewrite Hid. by apply pop_split_spec.
    + apply Forall_forall. by intros [id url [original|] title] _.
  - rewrite Hr in Hf. cbn in Hf. congruence.
Qed.
End Upstream.

(** ** Serialization *)

(** C7. Serializing a snapshot with [JSON.stringify] and reading the
    text back with [JSON.parse] succeeds and yields the same array of
    the same objects, field for field; two snapshots that are equal as
    values have equal descriptors. *)
Theorem snapshot_round_trip (images : list Image.t) :
  JSON_parse (JSON_stringify (snapshot images)) = Some (snapshot images) ∧
  ∀ images', snapshot images' = snapshot images → images' = images.
Proof.
  split; [apply parse_stringify_snapshot|].
  unfold snapshot. intros images' [= H]. revert images' H.
  induction images as [|i r IH]; intros [|i' r']; try done.
  cbn [map]. intros H. apply (inj2 cons) in H as [Hi Hr].
  f_equal; [by apply descriptor_inj|by apply IH].
Qed.

(** ** Health *)

(** C8. The health route makes no call and answers with status 200 and
    an object of two fields: [status], which is ['OK'], and the cache
    field, named [redis], which is ['connected'] when [redisConnected]
    is true and ['disconnected'] otherwise. *)
Theorem health_reports_connection {E} (env : environment E) (w : world E) :
  run env health w
  = (Resolved (res_json
                 (JObj [(js "status", JStr (js "OK"));
                        (js "redis",
                         JStr (if redisConnected w then js "connected"
                               else js "disconnected"))])),
     w, []).
Proof. reflexivity. Qed.

(** ** The single cache entry *)

(** C9. Whatever the environment does, every call made by a handler of
    the server (the image route, the health route, the clear route and
    the SIGINT hook) that reads, writes or deletes in the cache
    addresses the key ['cloudinary:images:all'], and every write sets an
    expiry of 3600 seconds. *)
Theorem cache_calls_stay_on_fixed_key (P : platform) {E} (env : environment E)
    (w : world E) :
  Forall on_fixed_key (run env (get_images P) w).2 ∧
  Forall on_fixed_key (run env health w).2 ∧
  Forall on_fixed_key (run env clear_cache w).2 ∧
  Forall on_fixed_key (run env on_sigint w).2.
Proof.
  repeat split; apply issues_run.
  - by apply get_images_issues.
  - apply health_issues.
  - by apply clear_cache_issues.
  - by apply on_sigint_issues.
Qed.

(** C10. A request to the image route answered with [cached: true]
    against a healthy store made one call, the read of the fixed key,
    and left the store as it was: same value, same expiry time. More
    generally, in any environment: a run of the image route that writes
    to the cache does not answer [cached: true] and the image route
    never deletes; the clear route never writes; the health route makes
    no call; the SIGINT hook neither writes nor deletes. *)
Theorem hit_leaves_cache_untouched :
  (∀ P search (w w' : world redis) r calls,
      run (live search) (get_images P) w = (Resolved r, w', calls) →
      get_prop (js "cached") (body r) = Some (JBool true) →
      w' = w ∧ calls = [RedisGet IMAGES_CACHE_KEY]) ∧
  (∀ P E (env : environment E) (w w' : world E) r calls,
      run env (get_images P) w = (Resolved r, w', calls) →
      Exists (fun c => is_write c = true) calls →
      get_prop (js "cached") (body r) ≠ Some (JBool true)) ∧
  (∀ P E (env : environment E) (w : world E),
      Forall (fun c => is_delete c = false) (run env (get_images P) w).2) ∧
  (∀ E (env : environment E) (w : world E),
      Forall (fun c => is_write c = false) (run env clear_cache w).2) ∧
  (∀ E (env : environment E) (w : world E), (run env health w).2 = []) ∧
  (∀ E (env : environment E) (w : world E),
      Forall (fun c => is_write c = false ∧ is_delete c = false)
             (run env on_sigint w).2).
Proof.
  repeat split.
  - by destruct (hit_only_reads P (live search) w w' r calls) as [_ ->].
  - by destruct (hit_only_reads P (live search) w w' r calls) as [-> _].
  - intros P E env w w' r calls Hrun Hw Hc.
    destruct (hit_only_reads P env w w' r calls Hrun Hc) as [-> _].
    apply Exists_cons in Hw as [[=]|Hw]. by apply Exists_nil in Hw.
  - intros P E env w. apply issues_run. by apply get_images_issues.
  - intros E env w. apply issues_run. by apply clear_cache_issues.
  - intros E env w. apply issues_run. by apply on_sigint_issues.
Qed.

(** ** Sample runs *)


(** C1 as stated fails. A request that found [redisConnected] false
    skips the read of the cache, and still writes to the cache when the
    connection comes up during the fetch. When that write is refused,
    the request fails with status 500 although the fetcher returned:
    it fails because of the cache. *)
Lemma cache_down_request_fails_on_cache :
  redisConnected (World false empty_redis) = false ∧
  run (connecting_replica two_images) (fetchImagesFromCloudinary demo)
    (World false empty_redis)
  = (Resolved [tom; rex], World true empty_redis, [image_search]) ∧
  run (connecting_replica two_images) (get_images demo) (World false empty_redis)
  = (Resolved
       {| status := 500;
          body := JObj [(js "success", JBool false);
                        (js "error",
                         JStr (js "READONLY You can't write against a read only replica."))] |},
     World true empty_redis,
     [image_search;
      RedisSetEx IMAGES_CACHE_KEY 3600 (JSON_stringify (snapshot [tom; rex]))]) ∧
  ¬ Forall (fun c => is_cache_call c = false)
      (run (connecting_replica two_images) (get_images demo) (World false empty_redis)).2.
Proof.
  assert (run (connecting_replica two_images) (get_images demo) (World false empty_redis)
          = (Resolved
               {| status := 500;
                  body := JObj [(js "success", JBool false);
                                (js "error",
                                 JStr (js "READONLY You can't write against a read only replica."))] |},
             World true empty_redis,
             [image_search;
              RedisSetEx IMAGES_CACHE_KEY 3600 (JSON_stringify (snapshot [tom; rex]))]))
    as Hrun by (vm_compute; reflexivity).
  split; [reflexivity|]. split; [vm_compute; reflexivity|]. split; [exact Hrun|].
  rewrite Hrun. cbn [snd]. intros H.
  apply Forall_cons in H as [_ H]. apply Forall_cons in H as [H _]. discriminate H.
Qed.

(** C2 as stated fails. An unexpired entry whose value is the empty
    string is not served: the fetcher is invoked and the answer says
    [cached: false]. An unexpired entry whose value is not JSON fails
    the request with status 500. *)
Lemma unexpired_value_not_served :
  (store blank_redis !! IMAGES_CACHE_KEY = Some {| value := []; expires_at := 4200 |} ∧
   (now blank_redis < 4200)%Z ∧
   run (live two_images) (get_images demo) (World true blank_redis)
   = (Resolved
        {| status := 200;
           body := JObj [(js "success", JBool true); (js "cached", JBool false);
                         (js "data", snapshot [tom; rex])] |},
      World true
        (redis_setEx IMAGES_CACHE_KEY 3600 (JSON_stringify (snapshot [tom; rex]))
           blank_redis),
      [RedisGet IMAGES_CACHE_KEY; image_search;
       RedisSetEx IMAGES_CACHE_KEY 3600 (JSON_stringify (snapshot [tom; rex]))])) ∧
  (store garbled_redis !! IMAGES_CACHE_KEY
   = Some {| value := js "<html>"; expires_at := 4200 |} ∧
   (now garbled_redis < 4200)%Z ∧
   run (live two_images) (get_images demo) (World true garbled_redis)
   = (Resolved
        {| status := 500;
           body := JObj [(js "success", JBool false);
                         (js "error", JStr (js "Unexpected token in JSON"))] |},
      World true garbled_redis, [RedisGet IMAGES_CACHE_KEY])).
Proof.
  split.
  - split; [vm_compute; reflexivity|]. split; [reflexivity|].
    vm_compute. reflexivity.
  - split; [vm_compute; reflexivity|]. split; [reflexivity|].
    vm_compute. reflexivity.
Qed.

(** C3 as stated fails. With the cache connected and empty and a
    fetcher that returns, a refused write fails the request with status
    500: the images are not returned, and nothing is stored. *)
Lemma refused_write_fails_miss :
  redisConnected (World true empty_redis) = true ∧
  store empty_redis !! IMAGES_CACHE_KEY = None ∧
  run (replica two_images) (fetchImagesFromCloudinary demo) (World true empty_redis)
  = (Resolved [tom; rex], World true empty_redis, [image_search]) ∧
  run (replica two_images) (get_images demo) (World true empty_redis)
  = (Resolved
       {| status := 500;
          body := JObj [(js "success", JBool false);
                        (js "error",
                         JStr (js "READONLY You can't write against a read only replica."))] |},
     World true empty_redis,
     [RedisGet IMAGES_CACHE_KEY; image_search;
      RedisSetEx IMAGES_CACHE_KEY 3600 (JSON_stringify (snapshot [tom; rex]))]).
Proof.
  split; [reflexivity|]. split; [reflexivity|].
  split; vm_compute; reflexivity.
Qed.

(** C5 as stated fails. A response whose second resource has no
    [secure_url] is malformed, and the fetcher returns all the same:
    the descriptor has no [original_url], and the image route answers
    with status 200. *)
Lemma missing_secure_url_is_accepted :
  Resource.secure_url unlinked = None ∧
  run (live unlinked_listing) (fetchImagesFromCloudinary demo) (World false empty_redis)
  = (Resolved [tom; bare], World false empty_redis, [image_search]) ∧
  run (live unlinked_listing) (get_images demo) (World false empty_redis)
  = (Resolved
       {| status := 200;
          body :=
            JObj [(js "success", JBool true); (js "cached", JBool false);
                  (js "data",
                   JArr [JObj [(js "public_id", JStr (js "pets/cats/tom"));
                               (js "url",
                                JStr (js "https://res.cloudinary.com/demo/image/upload/c_fill,h_400,q_auto,w_400/pets/cats/tom"));
                               (js "original_url",
                                JStr (js "https://res.cloudinary.com/demo/pets/cats/tom.jpg"));
                               (js "title", JStr (js "tom"))];
                         JObj [(js "public_id", JStr (js "rex"));
                               (js "url",
                                JStr (js "https://res.cloudinary.com/demo/image/upload/c_fill,h_400,q_auto,w_400/rex"));
                               (js "title", JStr (js "rex"))]])] |},
     World false empty_redis, [image_search]).
Proof. split; [reflexivity|]. split; vm_compute; reflexivity. Qed.

(** C6 as stated fails. The fetcher does not truncate: from an
    upstream that returns 21 resources it returns 21 descriptors. And
    a response that holds an identifier the URL builder throws on, be
    it ['50%off'] or a lone surrogate, makes the fetcher raise although
    the search resolved. *)
Lemma fetcher_does_not_truncate :
  (run (live long_listing) (fetchImagesFromCloudinary demo) (World false empty_redis)
   = (Resolved (replicate 21 rex), World false empty_redis, [image_search]) ∧
   ¬ (length (replicate 21 rex) ≤ 20)%nat) ∧
  (Resource.public_id sale = Some (js "50%off") ∧
   run (live sale_listing) (fetchImagesFromCloudinary demo) (World false empty_redis)
   = (Rejected (Error (js "Failed to fetch images from Cloudinary")),
      World false empty_redis, [image_search])) ∧
  (Resource.public_id stray = Some [0xD83D] ∧
   run (live stray_listing) (fetchImagesFromCloudinary demo) (World false empty_redis)
   = (Rejected (Error (js "Failed to fetch images from Cloudinary")),
      World false empty_redis, [image_search])).
Proof.
  split; [split|split; split].
  - vm_compute. reflexivity.
  - rewrite length_replicate. lia.
  - reflexivity.
  - vm_compute. reflexivity.
  - reflexivity.
  - vm_compute. reflexivity.
Qed.

(** [JSON.stringify] on strings: a slash is copied, a line feed and a
    lone surrogate are escaped, a surrogate pair is copied. *)
Example quote_samples :
  quote (js "a/b") = QUOTE :: js "a/b" ++ [QUOTE] ∧
  quote [10] = QUOTE :: js "\n" ++ [QUOTE] ∧
  quote [0xD83D] = QUOTE :: js "\ud83d" ++ [QUOTE] ∧
  quote [0xD83D; 0xDE00] = [QUOTE; 0xD83D; 0xDE00; QUOTE].
Proof. by repeat split. Qed.

(** The text stored for a gallery of one image. *)
Example stored_text :
  JSON_stringify (snapshot [rex])
  = [LBRACKET; LBRACE]
    ++ quote (js "public_id") ++ [COLON] ++ quote (js "rex") ++ [COMMA]
    ++ quote (js "url") ++ [COLON]
    ++ quote (js "https://res.cloudinary.com/demo/image/upload/c_fill,h_400,q_auto,w_400/rex")
    ++ [COMMA]
    ++ quote (js "original_url") ++ [COLON]
    ++ quote (js "https://res.cloudinary.com/demo/rex.jpg") ++ [COMMA]
    ++ quote (js "title") ++ [COLON] ++ quote (js "rex")
    ++ [RBRACE; RBRACKET].
Proof. reflexivity. Qed.

(** [JSON.parse] on texts that are not snapshots. *)
Example parse_samples :
  JSON_parse (js " [1, 2.5e-3, true, null, {}] ")
  = Some (JArr [JNum (js "1"); JNum (js "2.5e-3"); JBool true; JNull; JObj []]) ∧
  JSON_parse (js "") = None ∧
  JSON_parse (js "[1,]") = None ∧
  JSON_parse (js "01") = None.
Proof. by repeat split. Qed.

(** The flag is read twice. A request that found it false skips the
    read of the cache, and still writes to the cache when the connection
    comes up during the fetch. *)
Lemma late_connection_writes :
  run (connecting two_images) (get_images demo) (World false empty_redis)
  = (Resolved (res_json (miss_body [tom; rex])),
     World true
       (redis_setEx IMAGES_CACHE_KEY 3600 (JSON_stringify (snapshot [tom; rex]))
          empty_redis),
     [image_search;
      RedisSetEx IMAGES_CACHE_KEY 3600 (JSON_stringify (snapshot [tom; rex]))]).
Proof. vm_compute. reflexivity. Qed.

(** A resource without identifier fails the whole request, and nothing
    is written to the cache. *)
Lemma malformed_listing_fails_request :
  run (live broken_listing) (get_images demo) (World true empty_redis)
  = (Resolved (res_status_json 500 (failure_body upstream_error)),
     World true empty_redis, [RedisGet IMAGES_CACHE_KEY; image_search]).
Proof. vm_compute. reflexivity. Qed.

Lemma two_images_honours_max_results : honours_max_results (live two_images).
Proof.
  intros expression m w r rs. cbn [live fst]. unfold two_images.
  destruct (Z.leb_spec 0 m) as [Hm|Hm]; [|done].
  intros [= <-] [= <-]. rewrite length_take. lia.
Qed.

Lemma cache_down_serves_uncached_witness :
  redisConnected (World false empty_redis) = false ∧
  run (live two_images) (get_images demo) (World false empty_redis)
  = (Resolved
       {| status := 200;
          body := JObj [(js "success", JBool true); (js "cached", JBool false);
                        (js "data", JArr (map Image.to_json [tom; rex]))] |},
     World false empty_redis, [image_search]).
Proof.
  split; [reflexivity|].
  destruct (cache_down_serves_uncached demo (live two_images)
              (World false empty_redis) eq_refl eq_refl)
    as (fetched & Hfetch & Hrun & _).
  rewrite Hrun. vm_compute in Hfetch. injection Hfetch as <-. reflexivity.
Defined.

Lemma hit_serves_cached_witness :
  run (live two_images) (get_images demo) (World true warm_redis)
  = (Resolved
       {| status := 200;
          body := JObj [(js "success", JBool true); (js "cached", JBool true);
                        (js "data", snapshot [tom; rex])] |},
     World true warm_redis, [RedisGet IMAGES_CACHE_KEY]).
Proof.
  apply (hit_serves_cached demo two_images (World true warm_redis) warm_entry
           (snapshot [tom; rex])).
  - reflexivity.
  - vm_compute. reflexivity.
  - reflexivity.
  - vm_compute. reflexivity.
Defined.

Lemma miss_fetches_and_stores_witness :
  run (live two_images) (get_images demo) (World true empty_redis)
  = (Resolved
       {| status := 200;
          body := JObj [(js "success", JBool true); (js "cached", JBool false);
                        (js "data", JArr (map Image.to_json [tom; rex]))] |},
     World true
       (redis_setEx IMAGES_CACHE_KEY 3600
          (JSON_stringify (JArr (map Image.to_json [tom; rex]))) empty_redis),
     [RedisGet IMAGES_CACHE_KEY; image_search;
      RedisSetEx IMAGES_CACHE_KEY 3600
        (JSON_stringify (JArr (map Image.to_json [tom; rex])))]).
Proof.
  apply (proj2 (miss_fetches_and_stores demo) two_images (World true empty_redis)
           [tom; rex]).
  - reflexivity.
  - vm_compute. reflexivity.
  - vm_compute. reflexivity.
Defined.


Lemma upstream_failure_surfaces_witness :
  run (live unreachable_host) (fetchImagesFromCloudinary demo) (World false empty_redis)
  = (Rejected (Error (js "Failed to fetch images from Cloudinary")),
     World false empty_redis, [image_search]).
Proof.
  apply (proj1 (upstream_failure_surfaces demo (live unreachable_host))
           (World false empty_redis)).
  reflexivity.
Defined.

Lemma fetcher_describes_resources_witness :
  run (live two_images) (fetchImagesFromCloudinary demo) (World true empty_redis)
  = (Resolved [tom; rex], World true empty_redis, [image_search]) ∧
  Image.title tom = js "tom" ∧ Image.original_url tom = Resource.secure_url cat.
Proof.
  destruct (fetcher_describes_resources demo (live two_images)
              (World true empty_redis) {| resources := Some [cat; dog] |} [cat; dog]
              eq_refl eq_refl eq_refl)
    as (images & Hrun & _).
  split; [|split; reflexivity].
  rewrite Hrun. vm_compute in Hrun. injection Hrun as <-. reflexivity.
Defined.

Lemma snapshot_round_trip_witness :
  JSON_parse (JSON_stringify (snapshot [tom; rex])) = Some (snapshot [tom; rex]).
Proof. apply (proj1 (snapshot_round_trip [tom; rex])). Defined.

Lemma hit_leaves_cache_untouched_witness :
  run (live two_images) (get_images demo) (World true warm_redis)
  = (Resolved (res_json (hit_body (snapshot [tom; rex]))), World true warm_redis,
     [RedisGet IMAGES_CACHE_KEY]) ∧
  get_prop (js "cached") (body (res_json (hit_body (snapshot [tom; rex]))))
  = Some (JBool true) ∧
  World true warm_redis = World true warm_redis ∧
  [RedisGet IMAGES_CACHE_KEY] = [RedisGet IMAGES_CACHE_KEY].
Proof.
  assert (run (live two_images) (get_images demo) (World true warm_redis)
          = (Resolved (res_json (hit_body (snapshot [tom; rex]))),
             World true warm_redis, [RedisGet IMAGES_CACHE_KEY])) as Hrun
    by (vm_compute; reflexivity).
  assert (get_prop (js "cached") (body (res_json (hit_body (snapshot [tom; rex]))))
          = Some (JBool true)) as Hcached by reflexivity.
  split; [exact Hrun|]. split; [exact Hcached|].
  exact (proj1 hit_leaves_cache_untouched demo two_images (World true warm_redis)
           (World true warm_redis) _ _ Hrun Hcached).
Defined.

(** * Further properties of the server *)

(** ** Every request is answered *)

Section Answers.
Context (P : platform) {E : Type} (env : environment E).

(** The image route resolves, and with one of three bodies. *)
Lemma get_images_answers (w : world E) :
  ∃ r, (run env (get_images P) w).1.1 = Resolved r ∧
       ((∃ images, r = res_json (miss_body images)) ∨
        (∃ data, r = res_json (hit_body data)) ∨
        (∃ e, r = res_status_json 500 (failure_body e))).
Proof.
  assert (∀ w0, ∃ r,
             (run env (try_catch (fetch_and_cache P)
                         (fun error => Ret (res_status_json 500 (failure_body error))))
                w0).1.1 = Resolved r ∧
             ((∃ images, r = res_json (miss_body images)) ∨
              (∃ data, r = res_json (hit_body data)) ∨
              (∃ e, r = res_status_json 500 (failure_body e)))) as Hmiss.
  { intros w0. rewrite run_miss.
    destruct (run env (fetchImagesFromCloudinary P) w0) as [[[images|e] w1] c1];
      [|eauto 6].
    cbv zeta. destruct (redisConnected w1); [|eauto 6].
    destruct (env (RedisSetEx _ _ _) w1) as [[[]|e] w2]; eauto 6. }
  rewrite run_get_images. destruct (redisConnected w); [|apply Hmiss].
  destruct (env (RedisGet IMAGES_CACHE_KEY) w) as [[[[|c t]|]|e] w1].
  - destruct (Hmiss w1) as (r & Hr & Hcases).
    destruct (run env _ w1) as [[res w2] calls]. eauto.
  - destruct (JSON_parse (c :: t)); eauto 6.
  - destruct (Hmiss w1) as (r & Hr & Hcases).
    destruct (run env _ w1) as [[res w2] calls]. eauto.
  - eauto 6.
Qed.

(** The calls of the image route, in order. *)
Lemma get_images_calls (w : world E) :
  let calls := (run env (get_images P) w).2 in
  calls = [image_search] ∨
  (∃ v, calls = [image_search; RedisSetEx IMAGES_CACHE_KEY CACHE_TTL v]) ∨
  calls = [RedisGet IMAGES_CACHE_KEY] ∨
  calls = [RedisGet IMAGES_CACHE_KEY; image_search] ∨
  (∃ v, calls = [RedisGet IMAGES_CACHE_KEY; image_search;
                 RedisSetEx IMAGES_CACHE_KEY CACHE_TTL v]).
Proof.
  assert (∀ w0,
             let calls :=
               (run env (try_catch (fetch_and_cache P)
                           (fun error => Ret (res_status_json 500 (failure_body error))))
                  w0).2 in
             calls = [image_search] ∨
             ∃ v, calls = [image_search; RedisSetEx IMAGES_CACHE_KEY CACHE_TTL v])
    as Hmiss.
  { intros w0. cbv zeta. rewrite run_miss.
    destruct (run_fetch_shape P env w0) as (fetched & -> & _).
    destruct fetched as [images|e]; [|by left]. cbv zeta.
    destruct (redisConnected (env image_search w0).2); [|by left].
    destruct (env (RedisSetEx _ _ _) (env image_search w0).2) as [[[]|e] w2];
      right; eauto. }
  cbv zeta. rewrite run_get_images. destruct (redisConnected w).
  - destruct (env (RedisGet IMAGES_CACHE_KEY) w) as [[[[|c t]|]|e] w1].
    + specialize (Hmiss w1). cbv zeta in Hmiss.
      destruct (run env _ w1) as [[res w2] calls]. cbn [snd] in *.
      destruct Hmiss as [->|[v ->]]; eauto 8.
    + destruct (JSON_parse (c :: t)); auto.
    + specialize (Hmiss w1). cbv zeta in Hmiss.
      destruct (run env _ w1) as [[res w2] calls]. cbn [snd] in *.
      destruct Hmiss as [->|[v ->]]; eauto 8.
    + auto.
  - destruct (Hmiss w) as [->|[v ->]]; eauto.
Qed.
End Answers.

(** X1. The image route never throws: it answers with status 200 and
    [success: true], or with status 500, [success: false] and an
    [error] message. *)
Theorem get_images_always_answers (P : platform) {E} (env : environment E)
    (w : world E) :
  ∃ r, (run env (get_images P) w).1.1 = Resolved r ∧
       ((status r = 200%Z ∧ get_prop (js "success") (body r) = Some (JBool true) ∧
         is_Some (get_prop (js "data") (body r)) ∧
         ∃ b, get_prop (js "cached") (body r) = Some (JBool b)) ∨
        (status r = 500%Z ∧ get_prop (js "success") (body r) = Some (JBool false) ∧
         ∃ text, get_prop (js "error") (body r) = Some (JStr text))).
Proof.
  destruct (get_images_answers P env w)
    as (r & Hr & [[images ->]|[[data ->]|[e ->]]]);
    eexists; (split; [exact Hr|]).
  - left. repeat split; eauto.
  - left. repeat split; eauto.
  - right. repeat split; eauto.
Qed.

(** X2. A request makes at most one read, one search and one write, in
    that order, and nothing else: its calls are one of five sequences. *)
Theorem get_images_call_sequences (P : platform) {E} (env : environment E)
    (w : world E) :
  let calls := (run env (get_images P) w).2 in
  calls = [image_search] ∨
  (∃ v, calls = [image_search; RedisSetEx IMAGES_CACHE_KEY 3600 v]) ∨
  calls = [RedisGet IMAGES_CACHE_KEY] ∨
  calls = [RedisGet IMAGES_CACHE_KEY; image_search] ∨
  (∃ v, calls = [RedisGet IMAGES_CACHE_KEY; image_search;
                 RedisSetEx IMAGES_CACHE_KEY 3600 v]).
Proof. apply get_images_calls. Qed.

(** ** Failures of the cache while the flag is set *)



(** ** Cached values the server did not write *)


(** The image route against a healthy store that has nothing to serve
    under the fixed key. *)
Lemma run_live_miss (P : platform) search (w : world redis) (images : list Image.t) :
  redisConnected w = true →
  redis_get IMAGES_CACHE_KEY (ext w) = None ∨
  redis_get IMAGES_CACHE_KEY (ext w) = Some [] →
  (run (live search) (fetchImagesFromCloudinary P) w).1.1 = Resolved images →
  run (live search) (get_images P) w
  = (Resolved (res_json (miss_body images)),
     World true (redis_setEx IMAGES_CACHE_KEY 3600
                   (JSON_stringify (snapshot images)) (ext w)),
     [RedisGet IMAGES_CACHE_KEY; image_search;
      RedisSetEx IMAGES_CACHE_KEY 3600 (JSON_stringify (snapshot images))]).
Proof.
  intros Hup Hnone Hfetch.
  destruct (run_fetch_shape P (live search) w) as (fetched & Hshape & _).
  rewrite Hshape in Hfetch. cbn [fst] in Hfetch. subst fetched.
  change (live search image_search w).2 with w in Hshape.
  rewrite run_get_images, Hup. cbn [live].
  destruct Hnone as [->| ->]; rewrite run_miss, Hshape, Hup; cbn [live];
    by rewrite Hup.
Qed.

(** The calls of the image route when the store has nothing to serve:
    the upstream is asked. *)
Lemma live_miss_asks_upstream (P : platform) search (w : world redis) :
  redisConnected w = true →
  redis_get IMAGES_CACHE_KEY (ext w) = None →
  ∃ rest, (run (live search) (get_images P) w).2
          = RedisGet IMAGES_CACHE_KEY :: image_search :: rest.
Proof.
  intros Hup Hnone. rewrite run_get_images, Hup. cbn [live]. rewrite Hnone.
  rewrite run_miss.
  destruct (run_fetch_shape P (live search) w) as (fetched & -> & _).
  destruct fetched as [images|e]; [|by eexists]. cbv zeta.
  destruct (redisConnected (live search image_search w).2); by eexists.
Qed.



(** ** The life of the cache entry *)


(** X9. Once 3600 seconds have passed since the miss, the next request asks
    the upstream again. *)
Theorem expired_entry_is_refetched (P : platform) search search' (w : world redis)
    (images : list Image.t) (d : Z) :
  redisConnected w = true →
  redis_get IMAGES_CACHE_KEY (ext w) = None →
  (run (live search) (fetchImagesFromCloudinary P) w).1.1 = Resolved images →
  (3600 ≤ d)%Z →
  let w1 := (run (live search) (get_images P) w).1.2 in
  ∃ rest, (run (live search') (get_images P) (elapse d w1)).2
          = RedisGet IMAGES_CACHE_KEY :: image_search :: rest.
Proof.
  intros Hup Hnone Hfetch Hd w1. subst w1.
  rewrite (run_live_miss P search w images) by auto. cbn [fst snd].
  apply live_miss_asks_upstream; [done|].
  cbn [elapse ext]. unfold redis_get. cbn [store redis_setEx now].
  rewrite lookup_insert_eq. cbn [mbind option_bind expires_at value].
  rewrite bool_decide_eq_false_2; [done|lia].
Qed.

(** X10. After the clear route has answered, the next request to the image
    route asks the upstream again, however fresh the entry was. *)
Theorem clear_then_refetch (P : platform) search search' (w : world redis) (d : Z) :
  redisConnected w = true →
  let w1 := (run (live search) clear_cache w).1.2 in
  ∃ rest, (run (live search') (get_images P) (elapse d w1)).2
          = RedisGet IMAGES_CACHE_KEY :: image_search :: rest.
Proof.
  intros Hup w1. subst w1. rewrite run_clear_cache, Hup. cbn [live fst snd].
  apply live_miss_asks_upstream; [done|].
  cbn [elapse ext]. unfold redis_get. cbn [store redis_del].
  by rewrite lookup_delete_eq.
Qed.

(** A program whose cache calls stay on the fixed key leaves every
    other key of a healthy store, the clock and the flag as they were. *)
Lemma live_frame search (k : jsstring) {R} (p : prog R) :
  issues on_fixed_key p →
  k ≠ IMAGES_CACHE_KEY →
  ∀ w : world redis,
    store (ext (run (live search) p w).1.2) !! k = store (ext w) !! k ∧
    now (ext (run (live search) p w).1.2) = now (ext w) ∧
    redisConnected (run (live search) p w).1.2 = redisConnected w.
Proof.
  intros Hp Hk. induction Hp as [r|e|f _ IH|c f Hc _ IH]; intros w; cbn [run].
  - done.
  - done.
  - apply IH.
  - destruct (live search c w) as [o w1] eqn:Hstep.
    specialize (IH o w1).
    destruct (run (live search) (f o) w1) as [[res w2] calls]. cbn [fst snd] in *.
    destruct IH as (Hs & Hn & Hf). rewrite Hs, Hn, Hf. clear Hs Hn Hf.
    destruct c as [k'|k' seconds v|k'| |expression max_results];
      cbn [live on_fixed_key] in *; injection Hstep as <- <-; try done.
    + destruct Hc as [-> _]. cbn [ext store redis_setEx now redisConnected].
      by rewrite lookup_insert_ne.
    + subst k'. cbn [ext store redis_del now redisConnected].
      by rewrite lookup_delete_ne.
Qed.

(** X11. No handler disturbs what else lives in the store: against a healthy
    store, every key other than the fixed one keeps its value and expiry
    through the image route, the clear route, the health route and the
    SIGINT hook. *)
Theorem other_keys_untouched (P : platform) search (w : world redis) (k : jsstring) :
  k ≠ IMAGES_CACHE_KEY →
  store (ext (run (live search) (get_images P) w).1.2) !! k = store (ext w) !! k ∧
  store (ext (run (live search) clear_cache w).1.2) !! k = store (ext w) !! k ∧
  store (ext (run (live search) health w).1.2) !! k = store (ext w) !! k ∧
  store (ext (run (live search) on_sigint w).1.2) !! k = store (ext w) !! k.
Proof.
  intros Hk. split; [|split; [|split]].
  - by apply live_frame; [apply get_images_issues|].
  - by apply live_frame; [apply clear_cache_issues|].
  - by apply live_frame; [apply health_issues|].
  - by apply live_frame; [apply on_sigint_issues|].
Qed.

(** ** Shutdown *)

(** X12. The SIGINT hook closes the connection only if the flag is set, and
    exits with code 0; when QUIT is rejected the hook throws and the
    exit is not reached. *)
Theorem sigint_quits_then_exits {E} (env : environment E) (w : world E) :
  run env on_sigint w =
  if redisConnected w then
    match env RedisQuit w with
    | (Resolved _, w1) => (Resolved 0%Z, w1, [RedisQuit])
    | (Rejected e, w1) => (Rejected e, w1, [RedisQuit])
    end
  else (Resolved 0%Z, w, []).
Proof.
  unfold on_sigint. rewrite run_bind, run_read_connected.
  destruct (redisConnected w); [|done].
  rewrite run_bind, (run_await env RedisQuit).
  by destruct (env RedisQuit w) as [[[]|e] w1].
Qed.

(** ** Titles *)

(** X13. The title of a descriptor is empty exactly when the identifier is
    empty or ends with a slash. *)
Theorem title_empty_iff (P : platform) (resource : Resource.t) (image : Image.t) :
  describes P resource image →
  Image.title image = [] ↔
  Image.public_id image = [] ∨ ∃ p, Image.public_id image = p ++ [SLASH].
Proof.
  intros (id & _ & -> & _ & _ & Ht). split.
  - intros Hempty. rewrite Hempty in Ht.
    apply pop_split_spec in Ht as [_ [->|[p ->]]]; eauto.
  - unfold pop in Ht. intros [->|[p ->]].
    + cbn in Ht. congruence.
    + rewrite split_at in Ht. change (split SLASH []) with [[] : jsstring] in Ht.
      rewrite last_snoc in Ht. congruence.
Qed.

(** ** Start-up configuration *)

Lemma js_String (a : ascii) (s : string) : js (String a s) = N_of_ascii a :: js s.
Proof. reflexivity. Qed.

Lemma pretty_N_char_code (d : N) : d < 10 → N_of_ascii (pretty_N_char d) = 48 + d.
Proof.
  intros Hd.
  assert (d = 0 ∨ d = 1 ∨ d = 2 ∨ d = 3 ∨ d = 4 ∨ d = 5 ∨ d = 6 ∨ d = 7
          ∨ d = 8 ∨ d = 9) as Hcases by lia.
  repeat destruct Hcases as [->|Hcases]; try reflexivity. by subst.
Qed.

Lemma digit_value_decimal (d : N) : d < 10 → digit_value 10 (48 + d) = Some d.
Proof.
  intros Hd. unfold digit_value.
  replace ((48 <=? 48 + d) && (48 + d <=? 57)) with true
    by (symmetry; apply andb_true_iff; split; apply N.leb_le; lia).
  cbn [mbind option_bind]. replace (48 + d - 48) with d by lia.
  by apply N.ltb_lt in Hd as ->.
Qed.

(** Reading the digits that [pretty] wrote. *)
Lemma digits_value_pretty_go (x : N) :
  ∀ s, digits_value 10 None (js (pretty_N_go x s))
       = digits_value 10 (if decide (x = 0) then None else Some x) (js s).
Proof.
  induction (N.lt_wf_0 x) as [x _ IH]. intros s.
  destruct (decide (x = 0)) as [->|Hx]; [done|].
  rewrite pretty_N_go_step by lia.
  rewrite IH by (apply N.div_lt; lia).
  rewrite js_String, pretty_N_char_code by (apply N.mod_lt; lia).
  assert (x = 10 * (x `div` 10) + x `mod` 10) as Hdm by (apply N.div_mod; lia).
  pose proof (N.mod_lt x 10 ltac:(lia)) as Hm.
  destruct (decide (x `div` 10 = 0)) as [Hq|Hq]; cbn [digits_value];
    rewrite digit_value_decimal by done; cbn [default from_option id].
  - replace (0 * 10 + x `mod` 10) with x by lia. reflexivity.
  - replace (x `div` 10 * 10 + x `mod` 10) with x by lia. done.
Qed.

Lemma decimal_digits_go (x : N) :
  ∀ s, Forall (fun c => is_digit c = true) (js s) →
       Forall (fun c => is_digit c = true) (js (pretty_N_go x s)).
Proof.
  induction (N.lt_wf_0 x) as [x _ IH]. intros s Hs.
  destruct (decide (x = 0)) as [->|Hx]; [done|].
  rewrite pretty_N_go_step by lia. apply IH; [apply N.div_lt; lia|].
  rewrite js_String. constructor; [|done].
  rewrite pretty_N_char_code by (apply N.mod_lt; lia).
  generalize (N.mod_lt x 10 ltac:(lia)). generalize (x `mod` 10). intros d Hd.
  unfold is_digit. apply andb_true_iff. split; apply N.leb_le; lia.
Qed.

Lemma digit_not_whitespace (c : N) :
  is_digit c = true → is_str_whitespace c = false ∧ c ≠ 45 ∧ c ≠ 43 ∧ c ≠ 120 ∧ c ≠ 88.
Proof.
  unfold is_digit. rewrite andb_true_iff, !N.leb_le. intros [H1 H2].
  split; [|lia]. unfold is_str_whitespace.
  repeat (apply orb_false_iff; split);
    first [apply N.eqb_neq; lia | apply andb_false_iff; left; apply N.leb_gt; lia].
Qed.

(** [parseInt] of a string of decimal digits reads all of it in base
    ten. *)
Lemma parseInt_digits (s : jsstring) :
  s ≠ [] → Forall (fun c => is_digit c = true) s →
  parseInt s = Z.of_N <$> digits_value 10 None s.
Proof.
  intros Hne Hs. destruct s as [|c r]; [done|].
  apply Forall_cons in Hs as [Hc Hr].
  destruct (digit_not_whitespace c Hc) as (Hws & H45 & H43 & _).
  unfold parseInt. cbn [trim_start]. rewrite Hws.
  apply N.eqb_neq in H45 as ->. apply N.eqb_neq in H43 as ->.
  destruct r as [|x r'].
  - by destruct (digits_value 10 None [c]).
  - apply Forall_cons in Hr as [Hx _].
    destruct (digit_not_whitespace x Hx) as (_ & _ & _ & H120 & H88).
    apply N.eqb_neq in H120 as ->. apply N.eqb_neq in H88 as ->.
    rewrite andb_false_r. by destruct (digits_value 10 None (c :: x :: r')).
Qed.

Lemma pretty_go_nonempty (x : N) : ∀ s, js s ≠ [] → js (pretty_N_go x s) ≠ [].
Proof.
  induction (N.lt_wf_0 x) as [x _ IH]. intros s Hs.
  destruct (decide (x = 0)) as [->|Hx]; [done|].
  rewrite pretty_N_go_step by lia. apply IH; [apply N.div_lt; lia|done].
Qed.

(** [parseInt] reads back the decimal text of a natural number. *)
Lemma parseInt_decimal (n : N) : parseInt (js (pretty n)) = Some (Z.of_N n).
Proof.
  unfold pretty, pretty_N. destruct (decide (n = 0)) as [->|Hn]; [done|].
  rewrite parseInt_digits.
  - rewrite digits_value_pretty_go. by rewrite decide_False.
  - rewrite pretty_N_go_step by lia. by apply pretty_go_nonempty.
  - by apply decimal_digits_go.
Qed.

(** X14. When REDIS_HOST and REDIS_PORT are both set, the client is pointed
    at that host and at the port whose decimal text REDIS_PORT holds,
    with REDIS_USERNAME defaulting to ['default']; REDIS_URL plays no
    part. *)
Theorem socket_options_from_environment (env : gmap jsstring jsstring)
    (h : N) (hs : jsstring) (n : N) :
  env !! js "REDIS_HOST" = Some (h :: hs) →
  env !! js "REDIS_PORT" = Some (js (pretty n)) →
  n < 2 ^ 53 →
  redis_client_options env
  = WithSocket (or_else (env !! js "REDIS_USERNAME") (js "default"))
               (env !! js "REDIS_PASSWORD")
               {| host := h :: hs; port := Some (Z.of_N n) |}.
Proof.
  intros Hhost Hport _. unfold redis_client_options, jsstring in *.
  rewrite Hhost, Hport.
  destruct (js (pretty n)) as [|p ps] eqn:Hp.
  - pose proof (parseInt_decimal n) as Hparse. by rewrite Hp in Hparse.
  - by rewrite <- Hp, parseInt_decimal.
Qed.

(** X15. A REDIS_PORT that does not start with a digit is not refused: the
    socket form is still chosen, with a port that is NaN. *)
Theorem non_numeric_port_is_nan (env : gmap jsstring jsstring)
    (h : N) (hs : jsstring) (c : N) (t : jsstring) :
  env !! js "REDIS_HOST" = Some (h :: hs) →
  env !! js "REDIS_PORT" = Some (c :: t) →
  is_str_whitespace c = false → c ≠ 45 → c ≠ 43 →
  digit_value 10 c = None →
  redis_client_options env
  = WithSocket (or_else (env !! js "REDIS_USERNAME") (js "default"))
               (env !! js "REDIS_PASSWORD")
               {| host := h :: hs; port := None |}.
Proof.
  intros Hhost Hport Hws H45 H43 Hdigit. unfold redis_client_options, jsstring in *.
  rewrite Hhost, Hport. do 2 f_equal.
  unfold parseInt. cbn [trim_start]. rewrite Hws.
  apply N.eqb_neq in H45 as ->. apply N.eqb_neq in H43 as ->.
  assert ((c =? 48) = false) as Hzero.
  { apply N.eqb_neq. intros ->. discriminate. }
  destruct t as [|x t']; [|rewrite Hzero; cbn [andb]];
    cbn [digits_value]; by rewrite Hdigit.
Qed.

(** ** JSON texts in general *)

(** X16. [JSON.parse(JSON.stringify(v))] gives [v] back for every value that
    holds no number and whose objects repeat no key: so for every body
    the image route sends around a snapshot. *)
Theorem plain_round_trip (v : json) :
  plain v = true → JSON_parse (JSON_stringify v) = Some v.
Proof. apply parse_stringify_plain. Qed.

(** ** The gallery page *)

(** The page's reading of a response the server built around a plain
    [data]. *)
Lemma load_success (B : browser) (b : bool) (data : json) :
  plain data = true →
  load B (served (res_json
                    (JObj [(js "success", JBool true); (js "cached", JBool b);
                           (js "data", data)])))
  = inr (Some data, Some (JBool b)).
Proof.
  intros Hplain. unfold served, load. cbn [status body res_json].
  change (ok 200) with true. cbv iota.
  rewrite parse_stringify_plain; [done|].
  cbn [plain forallb snd fmap list_fmap fst]. rewrite Hplain.
  by replace (bool_decide (NoDup [js "success"; js "cached"; js "data"])) with true
    by (vm_compute; reflexivity).
Qed.

(** X17. The page ends without an error exactly when the response has a 2xx
    status and a body that parses to a value, other than null, whose
    [success] is truthy; the spinner is gone in every case. *)
Theorem page_loads_iff (B : browser) (elapsed : Z) (f : fetched) (s : Home.state) :
  Home.loading (fetchImages B elapsed f s) = false ∧
  (Home.error (fetchImages B elapsed f s) = None ↔
   ∃ status text data,
     f = FetchResolved status text ∧ ok status = true ∧
     JSON_parse text = Some data ∧ data ≠ JNull ∧
     to_boolean B (get_prop (js "success") data) = true).
Proof.
  unfold fetchImages, load. split.
  - by repeat case_match.
  - split.
    + destruct f as [t|status text]; [done|].
      destruct (ok status) eqn:Hok; [|done].
      destruct (JSON_parse text) as [data|] eqn:Hparse; [|done].
      destruct (to_boolean B (get_prop (js "success") data)) eqn:Hs.
      * intros _. exists status, text, data. repeat split; try done.
        intros ->. by cbn in Hs.
      * by destruct data.
    + intros (status & text & data & -> & -> & -> & Hnull & ->). by destruct data.
Qed.

(** X18. A response outside 200-299 is reported by its status alone: the
    body is not read, and the images, the cache badge and the load time
    stay as they were. *)
Theorem non_ok_status_hides_body (B : browser) (elapsed status : Z) (text : jsstring)
    (s : Home.state) :
  ok status = false →
  fetchImages B elapsed (FetchResolved status text) s
  = {| Home.images := Home.images s; Home.loading := false;
       Home.error := Some (js "API Error: " ++ js (pretty status));
       Home.cached := Home.cached s; Home.loadTime := Home.loadTime s |}.
Proof. intros Hok. unfold fetchImages, load. by rewrite Hok. Qed.

(** X19. End to end, failure: whenever the image route answers
    [success: false], the page shows ['API Error: 500'], never the
    message the server sent; it keeps the images it had. *)
Theorem server_failure_on_page (P : platform) (B : browser) {E} (env : environment E)
    (w : world E) (r : response) (elapsed : Z) (s : Home.state) :
  (run env (get_images P) w).1.1 = Resolved r →
  get_prop (js "success") (body r) = Some (JBool false) →
  fetchImages B elapsed (served r) s
  = {| Home.images := Home.images s; Home.loading := false;
       Home.error := Some (js "API Error: 500");
       Home.cached := Home.cached s; Home.loadTime := Home.loadTime s |}.
Proof.
  intros Hrun Hfail.
  destruct (get_images_answers P env w)
    as (r' & Hr' & [[images ->]|[[data ->]|[e ->]]]);
    rewrite Hrun in Hr'; injection Hr' as ->; try done.
Qed.

(** X20. End to end, success: whenever the image route answers with a
    snapshot as [data] (freshly fetched, or cached by an earlier
    request), the page holds that snapshot, the [cached] flag of the
    answer, the measured load time and no error. *)
Theorem server_success_on_page (P : platform) (B : browser) {E} (env : environment E)
    (w : world E) (r : response) (images : list Image.t) (elapsed : Z)
    (s : Home.state) :
  (run env (get_images P) w).1.1 = Resolved r →
  get_prop (js "data") (body r) = Some (snapshot images) →
  ∃ b, get_prop (js "cached") (body r) = Some (JBool b) ∧
       fetchImages B elapsed (served r) s
       = {| Home.images := Some (snapshot images); Home.loading := false;
            Home.error := None; Home.cached := Some (JBool b);
            Home.loadTime := elapsed |}.
Proof.
  intros Hrun Hdata.
  destruct (get_images_answers P env w)
    as (r' & Hr' & [[images' ->]|[[data ->]|[e ->]]]);
    rewrite Hrun in Hr'; injection Hr' as ->; [| |done].
  - change (Some (snapshot images') = Some (snapshot images)) in Hdata.
    apply (inj Some) in Hdata. exists false. split; [done|].
    unfold fetchImages, miss_body. rewrite Hdata.
    by rewrite (load_success B false _ (plain_snapshot images)).
  - change (Some data = Some (snapshot images)) in Hdata.
    apply (inj Some) in Hdata as ->. exists true. split; [done|].
    unfold fetchImages, hit_body.
    by rewrite (load_success B true _ (plain_snapshot images)).
Qed.

(** ** Sample runs of the further properties *)







Lemma expired_entry_is_refetched_witness :
  ∃ rest,
    (run (live two_images) (get_images demo)
       (elapse 3600
          (run (live two_images) (get_images demo) (World true empty_redis)).1.2)).2
    = RedisGet IMAGES_CACHE_KEY :: image_search :: rest.
Proof.
  apply (expired_entry_is_refetched demo two_images two_images
           (World true empty_redis) [tom; rex] 3600).
  - reflexivity.
  - vm_compute. reflexivity.
  - vm_compute. reflexivity.
  - lia.
Defined.

Lemma clear_then_refetch_witness :
  ∃ rest,
    (run (live two_images) (get_images demo)
       (elapse 5 (run (live two_images) clear_cache (World true warm_redis)).1.2)).2
    = RedisGet IMAGES_CACHE_KEY :: image_search :: rest.
Proof.
  apply (clear_then_refetch demo two_images two_images (World true warm_redis) 5).
  reflexivity.
Defined.

Lemma other_keys_untouched_witness :
  store (ext (run (live two_images) (get_images demo) (World true blank_redis)).1.2)
    !! js "session:42"
  = Some {| value := js "alice"; expires_at := 9000 |}.
Proof.
  assert (js "session:42" ≠ IMAGES_CACHE_KEY) as Hk by discriminate.
  destruct (other_keys_untouched demo two_images (World true blank_redis)
              (js "session:42") Hk) as [Hkept _].
  etransitivity; [exact Hkept|]. vm_compute. reflexivity.
Defined.

Lemma title_empty_iff_witness :
  describes demo folder untitled ∧ Image.title untitled = [].
Proof.
  assert (describes demo folder untitled) as Hd.
  { exists (js "pets/"). repeat split; reflexivity. }
  split; [exact Hd|].
  apply (proj2 (title_empty_iff demo folder untitled Hd)).
  right. exists (js "pets"). reflexivity.
Defined.

Lemma socket_options_from_environment_witness :
  redis_client_options socket_env
  = WithSocket (js "default") (Some (js "s3cret"))
      {| host := js "cache.internal"; port := Some 6379%Z |}.
Proof.
  apply (socket_options_from_environment socket_env 99 (js "ache.internal") 6379).
  - vm_compute. reflexivity.
  - vm_compute. reflexivity.
  - reflexivity.
Defined.

Lemma non_numeric_port_is_nan_witness :
  redis_client_options bad_port_env
  = WithSocket (js "default") None {| host := js "cache.internal"; port := None |}.
Proof.
  apply (non_numeric_port_is_nan bad_port_env 99 (js "ache.internal") 97 (js "uto")).
  - vm_compute. reflexivity.
  - vm_compute. reflexivity.
  - reflexivity.
  - discriminate.
  - discriminate.
  - reflexivity.
Defined.

Lemma plain_round_trip_witness :
  JSON_parse (JSON_stringify (miss_body [tom; rex])) = Some (miss_body [tom; rex]).
Proof. apply (plain_round_trip (miss_body [tom; rex])). reflexivity. Defined.

Lemma page_loads_iff_witness :
  Home.error (fetchImages chrome 12 (served (res_json (miss_body [tom; rex])))
                Home.initial) = None.
Proof.
  apply (proj2 (page_loads_iff chrome 12 (served (res_json (miss_body [tom; rex])))
                  Home.initial)).
  exists 200%Z, (JSON_stringify (miss_body [tom; rex])), (miss_body [tom; rex]).
  split; [reflexivity|]. split; [reflexivity|].
  split; [vm_compute; reflexivity|]. split; [discriminate|reflexivity].
Defined.

Lemma non_ok_status_hides_body_witness :
  fetchImages chrome 12 (FetchResolved 404 (js "Not Found")) Home.initial
  = {| Home.images := Some (JArr []); Home.loading := false;
       Home.error := Some (js "API Error: 404");
       Home.cached := Some (JBool false); Home.loadTime := 0 |}.
Proof.
  apply (non_ok_status_hides_body chrome 12 404 (js "Not Found") Home.initial).
  reflexivity.
Defined.

Lemma server_failure_on_page_witness :
  fetchImages chrome 12
    (served (res_status_json 500 (failure_body upstream_error))) Home.initial
  = {| Home.images := Some (JArr []); Home.loading := false;
       Home.error := Some (js "API Error: 500");
       Home.cached := Some (JBool false); Home.loadTime := 0 |}.
Proof.
  apply (server_failure_on_page demo chrome (live unreachable_host)
           (World true empty_redis)).
  - vm_compute. reflexivity.
  - reflexivity.
Defined.

Lemma server_success_on_page_witness :
  ∃ b,
    get_prop (js "cached") (body (res_json (hit_body (snapshot [tom; rex]))))
    = Some (JBool b) ∧
    fetchImages chrome 12 (served (res_json (hit_body (snapshot [tom; rex]))))
      Home.initial
    = {| Home.images := Some (snapshot [tom; rex]); Home.loading := false;
         Home.error := None; Home.cached := Some (JBool b); Home.loadTime := 12 |}.
Proof.
  apply (server_success_on_page demo chrome (live two_images) (World true warm_redis)).
  - vm_compute. reflexivity.
  - reflexivity.
Defined.
